(** * Proofreader.py: a shallow embedding and its verified properties

    The program is a sequential batch script: per chapter file it trims
    title/footer lines, maps ASCII punctuation to full-width forms,
    calls a spelling corrector and a grammar heuristic, and writes the
    result plus an optional report.

    Python [str] values are modelled as lists of Unicode code points
    ([list Z]); exceptions by an explicit [outcome]; the file system
    and the attribute dictionaries of function objects by an explicit
    [world] threaded through the effectful functions.

    What the model takes from outside the program:
    - the corrector and the parser are functions with no effect on the
      world; in the pipeline they return or raise an instance of
      [Exception], and the module [Strict] has the two adapters under
      raises of every class;
    - the Unicode table behind [\w] is a parameter beyond ASCII;
    - [str.splitlines], [str.strip], [re.split], [re.sub], [re.search]
      on the two patterns of the source, [os.path] (POSIX flavour) and
      [difflib.SequenceMatcher.ratio] are written out after the
      standard library; the ratio is kept as an exact fraction;
    - a file holds the text that reading it gives, and an accepted
      write stores its whole text; of a refused write the properties
      use the raise and the log of completed writes, not what it leaves
      at its path;
    - paths are compared as written: the normal forms of [pathlib] and
      links between paths are not modelled.
    Console output ([print]) is not part of the model, but for the
    formatting of a caught exception in [Strict]. *)

From Stdlib Require Import ZArith List Ascii String QArith Lia Bool DecimalString.
From stdpp Require Import base option list gmap strings.

Open Scope Z_scope.

(** ** Text: sequences of code points *)

Abbreviation text := (list Z).

(** Decoder for the UTF-8 literals of this file, so that constants can
    be written as they appear in the Python source. *)
Definition byte_val (a : ascii) : Z := Z.of_N (N_of_ascii a).

Fixpoint utf8_bytes (s : string) : list Z :=
  match s with
  | EmptyString => []
  | String a s' => byte_val a :: utf8_bytes s'
  end.

Fixpoint utf8_decode (fuel : nat) (bs : list Z) : text :=
  match fuel with
  | O => []
  | S fuel' =>
    match bs with
    | [] => []
    | b0 :: r0 =>
      if b0 <? 0x80 then b0 :: utf8_decode fuel' r0
      else if b0 <? 0xE0 then
        match r0 with
        | b1 :: r1 =>
          (Z.land b0 0x1F * 64 + Z.land b1 0x3F) :: utf8_decode fuel' r1
        | _ => []
        end
      else if b0 <? 0xF0 then
        match r0 with
        | b1 :: b2 :: r2 =>
          (Z.land b0 0x0F * 4096 + Z.land b1 0x3F * 64 + Z.land b2 0x3F)
            :: utf8_decode fuel' r2
        | _ => []
        end
      else
        match r0 with
        | b1 :: b2 :: b3 :: r3 =>
          (Z.land b0 0x07 * 262144 + Z.land b1 0x3F * 4096
           + Z.land b2 0x3F * 64 + Z.land b3 0x3F) :: utf8_decode fuel' r3
        | _ => []
        end
    end
  end.

Definition u (s : string) : text :=
  let bs := utf8_bytes s in utf8_decode (List.length bs) bs.

(** The straight double quote, U+0022. *)
Definition dquote : Z := 0x22.
Definition underscore : Z := 0x5F.
Definition LF : Z := 0x0A.
Definition CR : Z := 0x0D.

Definition open_mark : Z := Eval vm_compute in default 0 (head (u "「")).
Definition close_mark : Z := Eval vm_compute in default 0 (head (u "」")).

(** ** Exceptions and the world *)

(** Instances of Python's [Exception]; the payload is the message. *)
Inductive Exception : Type := Exc (msg : text).

Inductive outcome (A : Type) : Type :=
| Return (a : A)
| Raise (e : Exception).
Arguments Return {A} a.
Arguments Raise {A} e.

(** What a path of the file system holds, as [Path.read_text] sees it:
    a decodable text file, or something whose reading raises (a
    directory, undecodable bytes, no permission).  A path absent from
    the map does not exist. *)
Inductive node : Type :=
| File (content : text)
| Unreadable.

Record world : Type := World {
  files   : gmap (list Z) node;        (* path -> node *)
  locked  : gset (list Z);             (* paths whose writing raises *)
  written : list (list Z * list Z);    (* successful writes, oldest first *)
  funcs   : list (gmap string Z);      (* __dict__ of each function object *)
}.

Definition M (A : Type) : Type := world -> outcome A * world.

Definition ret {A} (a : A) : M A := fun w => (Return a, w).
Definition raise {A} (e : Exception) : M A := fun w => (Raise e, w).
Definition bind {A B} (k : A -> M B) (m : M A) : M B :=
  fun w => match m w with
           | (Return a, w') => k a w'
           | (Raise e, w') => (Raise e, w')
           end.
#[global] Instance M_ret : MRet M := @ret.
#[global] Instance M_bind : MBind M := @bind.
(** [try: m except Exception as e: h e].  Every raise of this layer is
    an instance of [Exception], so the handler takes them all; the
    raises that the clause lets through are those of [Strict]. *)
Definition try_except {A} (m : M A) (h : Exception -> M A) : M A :=
  fun w => match m w with
           | (Return a, w') => (Return a, w')
           | (Raise e, w') => h e w'
           end.
(** A call into an external service, which returns or raises. *)
Definition call {A} (o : outcome A) : M A := fun w => (o, w).

(** *** Function objects and their attributes *)

(** [def f(...)]: a new function object with an empty [__dict__]. *)
Definition new_function : M nat :=
  fun w => (Return (List.length (funcs w)),
            World (files w) (locked w) (written w) (funcs w ++ [∅])).

(** [getattr(f, name, dflt)] *)
Definition getattr (f : nat) (name : string) (dflt : Z) : M Z :=
  fun w => (Return (default dflt (d ← funcs w !! f; (d : gmap string Z) !! name)), w).

(** [f.name = v] *)
Definition setattr (f : nat) (name : string) (v : Z) : M unit :=
  fun w => (Return tt,
            World (files w) (locked w) (written w)
                  (alter (fun d : gmap string Z => <[name := v]> d) f (funcs w))).

(** *** Files *)

Definition read_text (p : list Z) : M text :=
  fun w => match files w !! p with
           | Some (File t) => (Return t, w)
           | Some Unreadable => (Raise (Exc (u "Permission denied")), w)
           | None => (Raise (Exc (u "No such file or directory")), w)
           end.

(** [Path.write_text], and a whole [with open(p, 'w')] block: an
    accepted write stores the text and is logged in [written]; a
    refused one raises and is not logged.  What a refused write leaves
    at its path (the old content, an empty or a partial file) is not
    modelled: [files] keeps the old content there, and no property
    reads it. *)
Definition write_text (p : list Z) (t : text) : M unit :=
  fun w => if decide (p ∈ locked w)
           then (Raise (Exc (u "Permission denied")), w)
           else (Return tt,
                 World (<[p := File t]> (files w)) (locked w)
                       (written w ++ [(p, t)]) (funcs w)).

(** ** Punctuation Normalizer *)

Definition punct_ascii : text := Eval vm_compute in u ",.!?:;()[]<>".
Definition punct_full : text := Eval vm_compute in u "，。！？：；（）【】》《".

(** [{ord(a): b for a, b in zip(...)}]: later pairs overwrite earlier ones. *)
Definition dict_of_pairs (l : list (Z * Z)) : gmap Z Z :=
  foldl (fun m p => <[p.1 := p.2]> m) ∅ l.

Definition punct_map : gmap Z Z := dict_of_pairs (zip punct_ascii punct_full).

(** [str.translate]: a code point with an entry is replaced by it, any
    other is kept. *)
Definition translate (table : gmap Z Z) (t : text) : text :=
  map (fun c => default c (table !! c)) t.

(** The mark for the replacement number [idx] (counted from 1). *)
Definition mark (idx : Z) : Z := if Z.odd idx then open_mark else close_mark.

Section Normalizer.

(** The Unicode database's alphanumeric property ([str.isalnum]) for
    the code points beyond ASCII; a table of the Python runtime. *)
Variable uni_alnum : Z -> bool.

Definition ascii_alnum (c : Z) : bool :=
  ((0x30 <=? c) && (c <=? 0x39)) || ((0x41 <=? c) && (c <=? 0x5A))
  || ((0x61 <=? c) && (c <=? 0x7A)).

(** [\w] of a [str] pattern: alphanumeric or underscore. *)
Definition is_word (c : Z) : bool :=
  (if c <? 0x80 then ascii_alnum c else uni_alnum c) || (c =? underscore).

Definition word_side (o : option Z) : bool :=
  match o with Some c => is_word c | None => false end.

(** [\B] between [that] (the character before, if any) and [this] (the
    character after, if any). *)
Definition non_boundary (that this : option Z) : bool :=
  Bool.eqb (word_side that) (word_side this).

(** The class [[一-鿿，。！？；：]]. *)
Definition cjk_class : text := Eval vm_compute in u "，。！？；：".
Definition in_lookbehind_class (c : Z) : bool :=
  ((0x4e00 <=? c) && (c <=? 0x9fff)) || existsb (Z.eqb c) cjk_class.

(** First alternative: a lookbehind for the class, then the double
    quote; tried where [prev] is the character before the position and
    [s] the text from the position on. *)
Definition alt_lookbehind (prev : option Z) (s : text) : bool :=
  match prev, s with
  | Some p, c :: _ => in_lookbehind_class p && (c =? dquote)
  | _, _ => false
  end.

(** Second alternative: [\B], the double quote, then a lookahead
    for [\B]. *)
Definition alt_non_boundary (prev : option Z) (s : text) : bool :=
  match s with
  | c :: rest =>
    non_boundary prev (Some c) && (c =? dquote)
    && non_boundary (Some c) (head rest)
  | [] => false
  end.

Definition quote_re (prev : option Z) (s : text) : bool :=
  alt_lookbehind prev s || alt_non_boundary prev s.

(** [re.sub(quote_re, repl, s)]: every match is one character long, so
    the scan moves on by one character either way. *)
Fixpoint re_sub (repl : M text) (prev : option Z) (s : text) : M text :=
  match s with
  | [] => ret []
  | c :: rest =>
    if quote_re prev s
    then r ← repl; out ← re_sub repl (Some c) rest; ret (r ++ out)
    else out ← re_sub repl (Some c) rest; ret (c :: out)
  end.

(** The nested function [rep], given its own function object. *)
Definition rep (self : nat) : M text :=
  i ← getattr self "idx" 0;
  let idx := i + 1 in
  setattr self "idx" idx;;
  ret (if negb (idx mod 2 =? 0) then [open_mark] else [close_mark]).

Definition convert_punctuation_to_chinese (t : text) : M text :=
  let t1 := translate punct_map t in
  self ← new_function;
  re_sub (rep self) None t1.

(** *** Specification-level views of the scan *)

(** The text [re.sub] produces when [n] replacements were made before. *)
Fixpoint marks (n : Z) (prev : option Z) (s : text) : text :=
  match s with
  | [] => []
  | c :: rest =>
    if quote_re prev s
    then mark (n + 1) :: marks (n + 1) (Some c) rest
    else c :: marks n (Some c) rest
  end.

(** The character before position [i], [prev0] standing before the
    text. *)
Definition prev_at (prev0 : option Z) (s : text) (i : nat) : option Z :=
  match i with O => prev0 | S j => s !! j end.

(** Position [i] holds a double quote that either follows a character
    of the lookbehind class, or has no word character on either side. *)
Definition replaceable_from (prev0 : option Z) (s : text) (i : nat) : bool :=
  match s !! i with
  | Some c =>
    (c =? dquote)
    && (match prev_at prev0 s i with
        | Some p => in_lookbehind_class p
        | None => false
        end
        || (negb (word_side (prev_at prev0 s i))
            && negb (word_side (s !! S i))))
  | None => false
  end.

Definition replaceable (s : text) (i : nat) : bool := replaceable_from None s i.

(** The positions of the replaced quotes, in document order. *)
Definition replaced_positions (s : text) : list nat :=
  List.filter (replaceable s) (seq 0 (List.length s)).

Fixpoint pos (prev : option Z) (s : text) : list nat :=
  match s with
  | [] => []
  | c :: rest =>
    if quote_re prev s
    then O :: map S (pos (Some c) rest)
    else map S (pos (Some c) rest)
  end.

(** How many quotes are replaced before position [i]. *)
Definition quotes_before (s : text) (i : nat) : nat :=
  List.length (List.filter (replaceable s) (seq 0 i)).

(** The normalizer called on each text of a list, one after the
    other. *)
Fixpoint convert_each (ts : list text) : M (list text) :=
  match ts with
  | [] => ret []
  | t :: rest =>
    out ← convert_punctuation_to_chinese t;
    outs ← convert_each rest;
    ret (out :: outs)
  end.

End Normalizer.

(** The first [q] marks of the alternation. *)
Definition alternating_marks (q : nat) : text :=
  map (fun j => mark (Z.of_nat j + 1)) (seq 0 q).

(** The table on the CJK unified ideographs, which are alphanumeric;
    the instance for texts whose characters beyond ASCII are such
    ideographs and punctuation. *)
Definition alnum_cjk (c : Z) : bool := (0x4e00 <=? c) && (c <=? 0x9fff).

(** A world with no files and no function objects. *)
Definition empty_world : world := World ∅ ∅ [] [].

(** Among [q] successive marks, the number of opening ones when the
    next mark is opening ([b = true]) or closing ([b = false]). *)
Fixpoint opening_among (b : bool) (q : nat) : nat :=
  match q with
  | O => O
  | S q' => ((if b then 1 else 0) + opening_among (negb b) q')%nat
  end.


(** ** Chapter Boundary Trimmer *)

(** *** [str] methods *)

(** The line boundaries of [str.splitlines]. *)
Definition is_linebreak (c : Z) : bool :=
  existsb (Z.eqb c)
          [0x0A; 0x0B; 0x0C; 0x0D; 0x1C; 0x1D; 0x1E; 0x85; 0x2028; 0x2029].

(** [str.splitlines()], [cur] being the line read so far: a line ends
    at a boundary (CR LF counting as one), and what follows the last
    boundary is a line only if it is not empty. *)
Fixpoint splitlines_from (cur : text) (s : text) : list text :=
  match s with
  | [] => match cur with [] => [] | _ => [cur] end
  | c :: rest =>
    if is_linebreak c then
      cur :: match rest with
             | c2 :: rest2 =>
               if (c =? CR) && (c2 =? LF)
               then splitlines_from [] rest2
               else splitlines_from [] rest
             | [] => splitlines_from [] rest
             end
    else splitlines_from (cur ++ [c]) rest
  end.

Definition splitlines (s : text) : list text := splitlines_from [] s.

(** [str.isspace] of one character. *)
Definition is_space (c : Z) : bool :=
  ((0x09 <=? c) && (c <=? 0x0D)) || ((0x1C <=? c) && (c <=? 0x20))
  || (c =? 0x85) || (c =? 0xA0) || (c =? 0x1680)
  || ((0x2000 <=? c) && (c <=? 0x200A))
  || (c =? 0x2028) || (c =? 0x2029) || (c =? 0x202F) || (c =? 0x205F)
  || (c =? 0x3000).

Fixpoint lstrip (s : text) : text :=
  match s with
  | c :: rest => if is_space c then lstrip rest else s
  | [] => []
  end.

Definition rstrip (s : text) : text := rev (lstrip (rev s)).
Definition strip (s : text) : text := rstrip (lstrip s).

(** [sep.join(parts)] *)
Fixpoint join (sep : text) (parts : list text) : text :=
  match parts with
  | [] => []
  | [x] => x
  | x :: rest => x ++ sep ++ join sep rest
  end.

(** [l[start:stop]] for indices that are not negative. *)
Definition slice {A} (l : list A) (start stop : nat) : list A :=
  take (stop - start) (drop start l).

Fixpoint starts_with (p s : text) : bool :=
  match p, s with
  | [], _ => true
  | x :: p', y :: s' => (x =? y) && starts_with p' s'
  | _ :: _, [] => false
  end.

(** *** [difflib.SequenceMatcher(None, a, b).ratio()]

    The standard library's matcher, with no junk predicate and
    [autojunk] left on. *)
Section SequenceMatcher.

Variables a b : text.

Fixpoint indices_from (j : nat) (x : Z) (s : text) : list nat :=
  match s with
  | [] => []
  | y :: s' =>
    if x =? y then j :: indices_from (S j) x s' else indices_from (S j) x s'
  end.

(** [b2j.get(x, [])] after [__chain_b]: the indices of [x] in [b],
    none for an element that is popular in a long [b]. *)
Definition b2j_get (x : Z) : list nat :=
  let idxs := indices_from 0 x b in
  let n := List.length b in
  if (200 <=? n)%nat && (n / 100 + 1 <? List.length idxs)%nat then [] else idxs.

Definition eq_at (i j : nat) : bool :=
  match a !! i, b !! j with
  | Some x, Some y => x =? y
  | _, _ => false
  end.

(** The inner loop of [find_longest_match] for one [i]. *)
Fixpoint flm_row (i blo bhi : nat) (j2len : gmap nat nat) (js : list nat)
    (st : gmap nat nat * (nat * nat * nat)) : gmap nat nat * (nat * nat * nat) :=
  match js with
  | [] => st
  | j :: js' =>
    if (j <? blo)%nat then flm_row i blo bhi j2len js' st
    else if (bhi <=? j)%nat then st
    else
      let '(newj2len, (besti, bestj, bestsize)) := st in
      let k := (match j with O => O | S j' => default O (j2len !! j') end + 1)%nat in
      let newj2len' := <[j := k]> newj2len in
      if (bestsize <? k)%nat
      then flm_row i blo bhi j2len js' (newj2len', (i + 1 - k, j + 1 - k, k)%nat)
      else flm_row i blo bhi j2len js' (newj2len', (besti, bestj, bestsize))
  end.

(** The outer loop, over [i] in [range(alo, ahi)]. *)
Fixpoint flm_rows (rows : list nat) (blo bhi : nat) (j2len : gmap nat nat)
    (best : nat * nat * nat) : nat * nat * nat :=
  match rows with
  | [] => best
  | i :: is' =>
    let js := match a !! i with Some x => b2j_get x | None => [] end in
    let '(newj2len, best') := flm_row i blo bhi j2len js (∅, best) in
    flm_rows is' blo bhi newj2len best'
  end.

(** The two extension loops that run when nothing is junk. *)
Fixpoint extend_back (alo blo besti bestj bestsize : nat) : nat * nat * nat :=
  match besti with
  | O => (besti, bestj, bestsize)
  | S besti' =>
    if (alo <? besti)%nat && (blo <? bestj)%nat && eq_at besti' (bestj - 1)
    then extend_back alo blo besti' (bestj - 1) (bestsize + 1)
    else (besti, bestj, bestsize)
  end.

Fixpoint extend_forward (fuel ahi bhi besti bestj bestsize : nat) : nat :=
  match fuel with
  | O => bestsize
  | S fuel' =>
    if (besti + bestsize <? ahi)%nat && (bestj + bestsize <? bhi)%nat
       && eq_at (besti + bestsize) (bestj + bestsize)
    then extend_forward fuel' ahi bhi besti bestj (bestsize + 1)
    else bestsize
  end.

Definition find_longest_match (alo ahi blo bhi : nat) : nat * nat * nat :=
  let '(besti, bestj, bestsize) :=
    flm_rows (seq alo (ahi - alo)) blo bhi ∅ (alo, blo, O) in
  let '(besti, bestj, bestsize) := extend_back alo blo besti bestj bestsize in
  (besti, bestj, extend_forward (List.length a) ahi bhi besti bestj bestsize).

(** The work list of [get_matching_blocks], the list's head being the
    element [queue.pop()] takes; only the sizes of the blocks are
    kept.  Every range popped with a match takes an element of [a]
    away, which bounds the number of rounds. *)
Fixpoint matching_size (fuel : nat) (queue : list (nat * nat * nat * nat))
    (acc : nat) : nat :=
  match fuel with
  | O => acc
  | S fuel' =>
    match queue with
    | [] => acc
    | (alo, ahi, blo, bhi) :: queue' =>
      let '(i, j, k) := find_longest_match alo ahi blo bhi in
      if (k =? 0)%nat then matching_size fuel' queue' acc
      else
        let q1 := if (alo <? i)%nat && (blo <? j)%nat
                  then (alo, i, blo, j) :: queue' else queue' in
        let q2 := if (i + k <? ahi)%nat && (j + k <? bhi)%nat
                  then (i + k, ahi, j + k, bhi)%nat :: q1 else q1 in
        matching_size fuel' q2 (acc + k)
    end
  end.

(** [ratio()]: [2.0 * matches / length], and [1.0] for two empty
    texts.  The quotient is kept exact; the comparison below agrees
    with the one on doubles as long as the texts are shorter than
    2^50 characters. *)
Definition ratio : Q :=
  let la := List.length a in
  let lb := List.length b in
  let matches := matching_size (2 * la + 1) [(O, la, O, lb)] O in
  if (la + lb =? 0)%nat then 1%Q
  else Qmake (2 * Z.of_nat matches) (Pos.of_nat (la + lb)).

End SequenceMatcher.

(** [r > 0.8] *)
Definition exceeds_threshold (r : Q) : bool := negb (Qle_bool r (8 # 10)).

(** *** The trimmer *)

Definition sim (a b : text) : Q := ratio a b.

Definition end_word : text := Eval vm_compute in u "本章完".
Definition end_word_long : text := Eval vm_compute in u "本章结束".
Definition paren_open : Z := Eval vm_compute in default 0 (head (u "（")).
Definition paren_close : Z := Eval vm_compute in default 0 (head (u "）")).

(** The pattern of the footer, matched at the head of [s]: an optional
    full-width opening parenthesis and [end_word], or [end_word_long],
    or [end_word] and a closing parenthesis. *)
Definition end_marker_at (s : text) : bool :=
  (match s with
   | c :: s' => (c =? paren_open) && starts_with end_word s'
   | [] => false
   end || starts_with end_word s)
  || starts_with end_word_long s
  || starts_with (end_word ++ [paren_close]) s.

(** [re.search] of that pattern. *)
Fixpoint end_marker_search (s : text) : bool :=
  end_marker_at s
  || match s with
     | [] => false
     | _ :: s' => end_marker_search s'
     end.

(** The first loop: [i] counts the lines passed, [start] is the
    variable of the source. *)
Fixpoint scan_start (chapter_title : text) (lines : list text)
    (i start : nat) : nat :=
  match lines with
  | [] => start
  | l :: lines' =>
    if exceeds_threshold (sim (strip l) chapter_title)
    then scan_start chapter_title lines' (S i) (S i)
    else start
  end.

(** The second loop, over the indices [idxs] that
    [range(len(lines) - 1, start - 1, -1)] yields. *)
Fixpoint scan_end (lines : list text) (idxs : list nat) (stop : nat) : nat :=
  match idxs with
  | [] => stop
  | i :: is' =>
    match lines !! i with
    | Some l => if end_marker_search l then scan_end lines is' i else stop
    | None => stop
    end
  end.

(** [range(hi - 1, lo - 1, -1)] for [lo <= hi]. *)
Definition range_down (hi lo : nat) : list nat := rev (seq lo (hi - lo)).

Definition trim_bounds (lines : list text) (chapter_title : text) : nat * nat :=
  let start := scan_start chapter_title lines 0 0 in
  let stop := scan_end lines (range_down (List.length lines) start)
                       (List.length lines) in
  (start, stop).

Definition clean_chapter_content (content chapter_title : text) : text :=
  let lines := splitlines content in
  match lines with
  | [] => content
  | _ =>
    let '(start, stop) := trim_bounds lines chapter_title in
    join [LF] (slice lines start stop)
  end.

(** ** Correction Service Adapter *)

(** One entry of the corrector's details: wrong fragment, right
    fragment, begin and end index. *)
Definition detail : Type := text * text * Z * Z.

(** What [corrector_instance.correct] may hand back: a value that
    unpacks into a text and a list of details, or any other value,
    whose unpacking into two names raises. *)
Inductive service_value : Type :=
| Unpacks (corrected_text : text) (details : list detail)
| Other.

(** [corrector_instance.correct]: an external service, which returns
    or raises. *)
Definition corrector : Type := text -> outcome service_value.

Definition correct_single_text (t : text) (corrector_instance : corrector)
    : M (text * list detail) :=
  try_except
    (v ← call (corrector_instance t);
     match v with
     | Unpacks corrected_text details => ret (corrected_text, details)
     | Other => raise (Exc (u "cannot unpack"))
     end)
    (fun e => ret (t, [])).

(** What [correct_single_text] is to return for the answer [o] of the
    service on the text [t]. *)
Definition corrected_or_original (t : text) (o : outcome service_value)
    : text * list detail :=
  match o with
  | Return (Unpacks corrected_text details) => (corrected_text, details)
  | Return Other => (t, [])
  | Raise _ => (t, [])
  end.

(** ** Grammar Heuristic Adapter *)

Record GrammarIssue : Type := Issue {
  issue_type : text;
  issue_context : text;
  issue_suggestion : text;
}.

(** The parser handle: [None] when loading failed, else the call of
    the parser on a list of sentences, whose value the code ignores. *)
Definition parser_handle : Type := option (list text -> outcome unit).

Definition sentence_enders : text := Eval vm_compute in u "。！？!?；;".
Definition le_char : Z := Eval vm_compute in default 0 (head (u "了")).

(** [re.split] on the class of sentence enders. *)
Fixpoint re_split_from (cur : text) (s : text) : list text :=
  match s with
  | [] => [cur]
  | c :: rest =>
    if existsb (Z.eqb c) sentence_enders
    then cur :: re_split_from [] rest
    else re_split_from (cur ++ [c]) rest
  end.

Definition re_split (s : text) : list text := re_split_from [] s.

Definition nonempty {A} (l : list A) : bool :=
  match l with [] => false | _ => true end.

Definition issue_of (sent : text) : GrammarIssue :=
  Issue (u "可能缺失动词") sent
        (u "检查" ++ [dquote] ++ u "了" ++ [dquote] ++ u "字前面是否缺少动词成分").

(** The loop over the sentences. *)
Fixpoint check_sentences (parser : list text -> outcome unit)
    (sentences : list text) (issues : list GrammarIssue)
    : M (list GrammarIssue) :=
  match sentences with
  | [] => ret issues
  | sent :: rest =>
    let n := List.length sent in
    if negb ((3 <=? n)%nat && (n <=? 400)%nat)
    then check_sentences parser rest issues
    else
      issues' ← try_except
                  (call (parser [sent]);;
                   if existsb (Z.eqb le_char) sent
                   then ret (issues ++ [issue_of sent])
                   else ret issues)
                  (fun e => ret issues);
      check_sentences parser rest issues'
  end.

Definition check_grammar_with_hanlp (t : text) (parser : parser_handle)
    : M (list GrammarIssue) :=
  match parser with
  | None => ret []
  | Some p =>
    sentences ← try_except
                  (ret (List.filter (fun s => (0 <? List.length s)%nat)
                                    (map strip (re_split t))))
                  (fun e => ret (if nonempty (strip t) then [t] else []));
    check_sentences p sentences []
  end.

(** ** File Processor *)

Definition slash : Z := 0x2F.
Definition dot : Z := 0x2E.

(** [os.path.basename]: what follows the last slash. *)
Fixpoint basename_from (cur : text) (p : text) : text :=
  match p with
  | [] => cur
  | c :: rest =>
    if c =? slash then basename_from [] rest else basename_from (cur ++ [c]) rest
  end.

Definition basename (p : text) : text := basename_from [] p.

(** Index of the last [c] in [s], if any. *)
Fixpoint rfind_from (i : nat) (c : Z) (s : text) (found : option nat) : option nat :=
  match s with
  | [] => found
  | x :: rest => rfind_from (S i) c rest (if x =? c then Some i else found)
  end.

Definition rfind (c : Z) (s : text) : option nat := rfind_from 0 c s None.

(** [os.path.splitext(p)[0]]: cut at the last dot, if it comes after
    the last slash and after a character of the file name that is not
    a dot. *)
Definition splitext_root (p : text) : text :=
  match rfind dot p with
  | None => p
  | Some dotIndex =>
    let filenameIndex := match rfind slash p with Some i => S i | None => O end in
    if existsb (fun c => negb (c =? dot))
               (slice p filenameIndex dotIndex)
    then take dotIndex p
    else p
  end.

(** [s.split('_', 1)[-1]] *)
Fixpoint after_first_underscore (s : text) (whole : text) : text :=
  match s with
  | [] => whole
  | c :: rest => if c =? underscore then rest else after_first_underscore rest whole
  end.

Definition chapter_title_of (name : text) : text :=
  let root := splitext_root name in after_first_underscore root root.

(** [Path(dir) / name] for a directory in normal form and a plain
    file name.  The normalisation of [pathlib] is not modelled: two
    spellings of one path are two keys of [files]. *)
Definition joinpath (dir name : text) : text := dir ++ [slash] ++ name.

Definition report_prefix : text := Eval vm_compute in u "校对报告_".

(** [str(n)] *)
Definition str_of_nat (n : nat) : text :=
  utf8_bytes (NilZero.string_of_uint (Nat.to_uint n)).

(** [enumerate(l, 1)] *)
Fixpoint enumerate_from {A} (i : nat) (l : list A) : list (nat * A) :=
  match l with
  | [] => []
  | x :: rest => (i, x) :: enumerate_from (S i) rest
  end.

Definition spelling_line (e : nat * detail) : text :=
  let '(i, (w, r, _, _)) := e in
  str_of_nat i ++ u ". " ++ w ++ u "  →  " ++ r ++ [LF].

Definition grammar_line (e : nat * GrammarIssue) : text :=
  let '(i, g) := e in
  str_of_nat i ++ u ". " ++ issue_type g ++ u "  建议：" ++ issue_suggestion g
  ++ u "  句：" ++ issue_context g ++ [LF].

(** Everything the [with] block writes to the report. *)
Definition report_text (name : text) (err_details : list detail)
    (grammar_issues : list GrammarIssue) : text :=
  (u "文件：" ++ name ++ [LF] ++ repeat 0x3D 50 ++ [LF])
  ++ (if nonempty err_details
      then u "[拼写] 共 " ++ str_of_nat (List.length err_details) ++ u " 处" ++ [LF]
           ++ concat (map spelling_line (enumerate_from 1 err_details))
      else [])
  ++ (if nonempty grammar_issues
      then u "[语法] 共 " ++ str_of_nat (List.length grammar_issues) ++ u " 处" ++ [LF]
           ++ concat (map grammar_line (enumerate_from 1 grammar_issues))
      else []).

Section Pipeline.

Variable uni_alnum : Z -> bool.

Definition process_file (input_file output_dir : text)
    (corrector_instance : corrector) (parser : parser_handle) : M unit :=
  let name := basename input_file in
  read ← try_except (t ← read_text input_file; ret (Some t))
                    (fun e => ret None);
  match read with
  | None => ret tt
  | Some t =>
    let chapter_title := chapter_title_of name in
    let cleaned := clean_chapter_content t chapter_title in
    converted ← convert_punctuation_to_chinese uni_alnum cleaned;
    '(corrected, err_details) ← correct_single_text converted corrector_instance;
    grammar_issues ← check_grammar_with_hanlp corrected parser;
    let out_file := joinpath output_dir name in
    write_text out_file corrected;;
    if nonempty err_details || nonempty grammar_issues
    then
      let report_file := joinpath output_dir (report_prefix ++ name) in
      write_text report_file (report_text name err_details grammar_issues)
    else ret tt
  end.

(** ** Batch Driver: the loop of [main] over the sorted files *)


End Pipeline.

(** ** Specification-level views of the pipeline *)

(** The value a computation returns in the empty world, and [dflt]
    if it raises there. *)
Definition value_of {A} (m : M A) (dflt : A) : A :=
  match (m empty_world).1 with
  | Return a => a
  | Raise _ => dflt
  end.

Section PipelineViews.

Variable uni_alnum : Z -> bool.

(** What [process_file] computes between the read and the writes:
    the corrected text, the correction records and the grammar issues
    of a file called [name] that holds [t]. *)
Definition pipeline (name t : text) (corrector_instance : corrector)
    (parser : parser_handle) : text * list detail * list GrammarIssue :=
  let cleaned := clean_chapter_content t (chapter_title_of name) in
  let converted := value_of (convert_punctuation_to_chinese uni_alnum cleaned) [] in
  let '(corrected, err_details) :=
    value_of (correct_single_text converted corrector_instance) ([], []) in
  let grammar_issues := value_of (check_grammar_with_hanlp corrected parser) [] in
  (corrected, err_details, grammar_issues).

(** The two writes of [process_file], for the results of its stages. *)
Definition write_phase (name output_dir : text)
    (r : text * list detail * list GrammarIssue) : M unit :=
  let '(corrected, err_details, grammar_issues) := r in
  write_text (joinpath output_dir name) corrected;;
  if nonempty err_details || nonempty grammar_issues
  then write_text (joinpath output_dir (report_prefix ++ name))
                  (report_text name err_details grammar_issues)
  else ret tt.


End PipelineViews.


(** Every line boundary of [s] is a line feed, and [s] does not end
    with one: [s] is the join of its own lines. *)
Definition lf_separated (s : text) : bool :=
  forallb (fun c => negb (is_linebreak c) || (c =? LF)) s
  && negb (bool_decide (last s = Some LF)).

(** No line of [content] is an echo of the title. *)
Definition no_title_echo (content chapter_title : text) : bool :=
  forallb (fun l => negb (exceeds_threshold (sim (strip l) chapter_title)))
          (splitlines content).

(** No line of [content] holds a chapter-end marker. *)
Definition no_end_marker (content : text) : bool :=
  forallb (fun l => negb (end_marker_search l)) (splitlines content).

(** ** A small book, for the examples *)

Module Book.

Definition out_path : text := Eval vm_compute in u "书_校对结果".
Definition chapter1 : text := Eval vm_compute in u "书/01_春.txt".
Definition chapter2 : text := Eval vm_compute in u "书/02_夏.txt".
Definition chapter3 : text := Eval vm_compute in u "书/03_秋.txt".

(** The first chapter: its title, a line of speech, the footer. *)
Definition text1 : text :=
  u "春" ++ [LF] ++ u "他说" ++ [dquote] ++ u "你好" ++ [dquote] ++ u "."
  ++ [LF] ++ u "本章完".

Definition text3 : text := u "秋" ++ [LF] ++ u "叶落了!".

(** The second chapter cannot be read. *)
Definition shelf : world :=
  World {[ chapter1 := File text1; chapter2 := Unreadable;
           chapter3 := File text3 ]} ∅ [] [].

(** The same shelf, the output file of the first chapter refusing
    writes. *)
Definition shelf_locked : world :=
  World {[ chapter1 := File text1; chapter3 := File text3 ]}
        {[ joinpath out_path (basename chapter1) ]} [] [].

(** A corrector that finds nothing, one that reports one correction,
    one that raises. *)
Definition corrector_clean : corrector := fun t => Return (Unpacks t []).
Definition corrector_one : corrector :=
  fun t => Return (Unpacks t [(u "因该", u "应该", 0, 2)]).

End Book.

(** ** Definitions for the further properties *)

(** The sentences [check_grammar_with_hanlp] goes through: the pieces
    between sentence enders, stripped, the empty ones left out. *)
Definition sentences_of (t : text) : list text :=
  List.filter (fun s => (0 <? List.length s)%nat) (map strip (re_split t)).

Definition returns {A} (o : outcome A) : bool :=
  match o with Return _ => true | Raise _ => false end.

(** The length test of the sentence loop. *)
Definition in_range (sent : text) : bool :=
  (3 <=? List.length sent)%nat && (List.length sent <=? 400)%nat.

(** A sentence that is reported: of a length within the range, taken
    by the parser without an exception, and holding the particle. *)
Definition reported (p : list text -> outcome unit) (sent : text) : bool :=
  in_range sent && returns (p [sent]) && existsb (Z.eqb le_char) sent.

Definition is_ender (c : Z) : bool := existsb (Z.eqb c) sentence_enders.

(** A line that the first loop of the trimmer passes over. *)
Definition is_echo (chapter_title l : text) : bool :=
  exceeds_threshold (sim (strip l) chapter_title).

(** The test of a list element that may be missing: [false] if it is. *)
Definition holds_at {A} (f : A -> bool) (l : list A) (i : nat) : bool :=
  match l !! i with Some x => f x | None => false end.

(** Some suffix of [s] starts with [p]. *)
Fixpoint occurs (p s : text) : bool :=
  starts_with p s
  || match s with
     | [] => false
     | _ :: s' => occurs p s'
     end.


(** The lookbehind test of a character that may be missing. *)
Definition lookbehind_side (o : option Z) : bool :=
  match o with Some p => in_lookbehind_class p | None => false end.

(** The first chapter alone, its report refusing writes. *)
Definition shelf_report_locked : world :=
  World {[ Book.chapter1 := File Book.text1 ]}
        {[ joinpath Book.out_path (report_prefix ++ basename Book.chapter1) ]}
        [] [].

(** A parser that takes every sentence, and one that raises on the
    sentences outside the range of the length test. *)
Definition parser_total : list text -> outcome unit := fun _ => Return tt.
Definition parser_in_range : list text -> outcome unit :=
  fun ss => if forallb in_range ss then Return tt
            else Raise (Exc (u "too long")).


(** ** The adapters under raises of every class

    The corrector and the parser are foreign code.  What they raise
    need not be an instance of [Exception]: [KeyboardInterrupt],
    [SystemExit] and [GeneratorExit] derive from [BaseException] only,
    and an [except Exception] clause lets them through.  The handlers of
    the adapters also format what they catch in an f-string, a call of
    its [__str__], which can raise in turn.  This layer tells these
    cases apart.  On services that raise nothing but instances of
    [Exception] that can be formatted it agrees with the adapters
    above, which are that special case. *)

Module Strict.

(** What a [raise] carries, as far as the handlers look at it: whether
    it is an instance of [Exception], and what formatting it gives,
    its message or the raise of its [__str__]. *)
Inductive BaseException : Type :=
| Printable (is_Exception : bool) (message : text)
| Unprintable (is_Exception : bool) (raised_by_str : BaseException).

Definition is_Exception (e : BaseException) : bool :=
  match e with Printable b _ | Unprintable b _ => b end.

Definition formatted (e : BaseException) : text + BaseException :=
  match e with
  | Printable _ message => inl message
  | Unprintable _ e' => inr e'
  end.

Inductive result (A : Type) : Type :=
| Returns (a : A)
| Raises (e : BaseException).
Arguments Returns {A} a.
Arguments Raises {A} e.

Definition M (A : Type) : Type := world -> result A * world.

Definition ret {A} (a : A) : M A := fun w => (Returns a, w).
Definition raise {A} (e : BaseException) : M A := fun w => (Raises e, w).
Definition bind {A B} (k : A -> M B) (m : M A) : M B :=
  fun w => match m w with
           | (Returns a, w') => k a w'
           | (Raises e, w') => (Raises e, w')
           end.
#[global] Instance M_ret : MRet M := @ret.
#[global] Instance M_bind : MBind M := @bind.

(** [try: m except Exception as e: h e]: a raise that is not an
    instance of [Exception] is not caught. *)
Definition try_except {A} (m : M A) (h : BaseException -> M A) : M A :=
  fun w => match m w with
           | (Returns a, w') => (Returns a, w')
           | (Raises e, w') =>
             if is_Exception e then h e w' else (Raises e, w')
           end.

Definition call {A} (o : result A) : M A := fun w => (o, w).

(** [print(f'...{e}')]: the text of [e] is asked for, and a raise of
    its [__str__] leaves the [print]. *)
Definition print_exception (e : BaseException) : M unit :=
  match formatted e with
  | inl _ => ret tt
  | inr e' => raise e'
  end.

(** The [ValueError] or [TypeError] of an unpacking that fails. *)
Definition unpack_error : BaseException :=
  Printable true (u "cannot unpack").

Definition corrector : Type := text -> result service_value.

Definition correct_single_text (t : text) (corrector_instance : corrector)
    : M (text * list detail) :=
  try_except
    (v ← call (corrector_instance t);
     match v with
     | Unpacks corrected_text details => ret (corrected_text, details)
     | Other => raise unpack_error
     end)
    (fun e => print_exception e;; ret (t, [])).

Definition parser_handle : Type := option (list text -> result unit).

Fixpoint check_sentences (parser : list text -> result unit)
    (sentences : list text) (issues : list GrammarIssue)
    : M (list GrammarIssue) :=
  match sentences with
  | [] => ret issues
  | sent :: rest =>
    let n := List.length sent in
    if negb ((3 <=? n)%nat && (n <=? 400)%nat)
    then check_sentences parser rest issues
    else
      issues' ← try_except
                  (call (parser [sent]);;
                   if existsb (Z.eqb le_char) sent
                   then ret (issues ++ [issue_of sent])
                   else ret issues)
                  (fun e => print_exception e;; ret issues);
      check_sentences parser rest issues'
  end.

Definition check_grammar_with_hanlp (t : text) (parser : parser_handle)
    : M (list GrammarIssue) :=
  match parser with
  | None => ret []
  | Some p =>
    sentences ← try_except
                  (ret (List.filter (fun s => (0 <? List.length s)%nat)
                                    (map strip (re_split t))))
                  (fun e => print_exception e;;
                            ret (if nonempty (strip t) then [t] else []));
    check_sentences p sentences []
  end.

(** *** Views of this layer *)

(** What leaves a handler [except Exception as e: print(f'...{e}')]
    when [e] is raised in its [try] block: nothing if [e] is caught and
    printed, else the raise that goes on. *)
Definition leaves_handler (e : BaseException) : option BaseException :=
  if is_Exception e
  then match formatted e with inl _ => None | inr e' => Some e' end
  else Some e.

(** The raise that ends the sentence loop, if any: that of the first
    sentence within the range of the length test on which the parser
    raises what the handler does not absorb. *)
Fixpoint escape_of (parser : list text -> result unit)
    (sentences : list text) : option BaseException :=
  match sentences with
  | [] => None
  | sent :: rest =>
    if in_range sent
    then match parser [sent] with
         | Returns _ => escape_of parser rest
         | Raises e =>
           match leaves_handler e with
           | Some e' => Some e'
           | None => escape_of parser rest
           end
         end
    else escape_of parser rest
  end.

Definition returns {A} (o : result A) : bool :=
  match o with Returns _ => true | Raises _ => false end.

(** A sentence that is reported: of a length within the range, taken
    by the parser without a raise, and holding the particle. *)
Definition reported (p : list text -> result unit) (sent : text) : bool :=
  in_range sent && returns (p [sent]) && existsb (Z.eqb le_char) sent.

(** The raises of the adapters above, in this layer: instances of
    [Exception] whose formatting gives their message. *)
Definition of_Exception (e : Exception) : BaseException :=
  match e with Exc msg => Printable true msg end.

Definition of_outcome {A} (o : outcome A) : result A :=
  match o with
  | Return a => Returns a
  | Raise e => Raises (of_Exception e)
  end.

(** [KeyboardInterrupt()]: not an instance of [Exception]; its text
    is empty. *)
Definition KeyboardInterrupt : BaseException := Printable false [].

(** An instance of [Exception] whose [__str__] raises a [TypeError]. *)
Definition bad_str : BaseException :=
  Unprintable true (Printable true (u "__str__ returned non-string")).

End Strict.

(** * Part II: properties *)

(** ** Properties of the Punctuation Normalizer *)

Ltac unfold_M :=
  unfold mbind, mret, M_bind, M_ret, bind, ret, call, try_except in *.


Lemma mark_of_mod idx :
  (if negb (idx mod 2 =? 0) then [open_mark] else [close_mark]) = [mark idx].
Proof.
  unfold mark. rewrite Zmod_odd. destruct (Z.odd idx); reflexivity.
Qed.

Section NormalizerFacts.

Variable uni_alnum : Z -> bool.

Local Abbreviation qre := (quote_re uni_alnum).
Local Abbreviation sub := (re_sub uni_alnum).
Local Abbreviation convert := (convert_punctuation_to_chinese uni_alnum).
Local Abbreviation marks' := (marks uni_alnum).
Local Abbreviation pos' := (pos uni_alnum).
Local Abbreviation repl_from := (replaceable_from uni_alnum).


Lemma rep_run self w d :
  funcs w !! self = Some d ->
  rep self w =
    (Return [mark (default 0 (d !! "idx") + 1)],
     World (files w) (locked w) (written w)
           (alter (fun d0 : gmap string Z =>
                     <["idx" := default 0 (d !! "idx") + 1]> d0) self (funcs w))).
Proof.
  intros Hd. unfold rep, getattr, setattr. unfold_M.
  rewrite Hd. simpl. rewrite mark_of_mod. reflexivity.
Qed.

Lemma re_sub_rep s : forall prev w self d,
  funcs w !! self = Some d ->
  exists w', sub (rep self) prev s w
             = (Return (marks' (default 0 (d !! "idx")) prev s), w')
             /\ files w' = files w /\ locked w' = locked w
             /\ written w' = written w.
Proof.
  induction s as [|c rest IH]; intros prev w self d Hd.
  - exists w. repeat split.
  - cbn [re_sub marks].
    destruct (qre prev (c :: rest)).
    + unfold_M. rewrite (rep_run _ _ _ Hd).
      set (n := default 0 (d !! "idx")).
      set (w1 := World _ _ _ _).
      assert (H1 : funcs w1 !! self = Some (<["idx" := n + 1]> d)).
      { subst w1. simpl. rewrite list_lookup_alter_eq, Hd. reflexivity. }
      destruct (IH (Some c) w1 self _ H1) as (w' & E & Hf & Hl & Hw).
      rewrite lookup_insert_eq in E. simpl in E.
      exists w'. rewrite E. repeat split; assumption.
    + unfold_M.
      destruct (IH (Some c) w self d Hd) as (w' & E & Hf & Hl & Hw).
      exists w'. rewrite E. repeat split; assumption.
Qed.

(** The normalizer returns, and its text is the pure scan started at
    counter 0; the file system is left alone. *)
Lemma convert_run t w :
  exists w', convert t w
             = (Return (marks' 0 None (translate punct_map t)), w')
             /\ files w' = files w /\ locked w' = locked w
             /\ written w' = written w.
Proof.
  unfold convert_punctuation_to_chinese, new_function. unfold_M.
  set (w1 := World _ _ _ _).
  assert (H1 : funcs w1 !! List.length (funcs w) = Some (∅ : gmap string Z)).
  { subst w1. simpl. apply list_lookup_middle. reflexivity. }
  destruct (re_sub_rep (translate punct_map t) None w1 _ _ H1)
    as (w' & E & Hf & Hl & Hw).
  exists w'. rewrite E. repeat split; assumption.
Qed.

(** *** Which double quotes are replaced, by position *)


Lemma quote_re_dquote prev c rest :
  qre prev (c :: rest) = true -> c = dquote.
Proof.
  unfold quote_re, alt_lookbehind, alt_non_boundary.
  destruct (Z.eqb_spec c dquote) as [->|Hne]; [reflexivity|].
  destruct prev; rewrite ?andb_false_r; simpl; discriminate.
Qed.

Lemma quote_re_spec prev c rest :
  qre prev (c :: rest) = repl_from prev (c :: rest) 0.
Proof.
  unfold quote_re, alt_lookbehind, alt_non_boundary, replaceable_from.
  cbn [lookup list_lookup prev_at].
  destruct (Z.eqb_spec c dquote) as [->|Hne].
  - replace (rest !! 0%nat) with (head rest) by (destruct rest; reflexivity).
    unfold non_boundary. cbn [word_side].
    replace (is_word uni_alnum dquote) with false by reflexivity.
    destruct prev as [p|]; cbn [word_side];
      rewrite ?andb_true_r; simpl;
      destruct (word_side uni_alnum (head rest));
      try destruct (is_word uni_alnum p);
      try destruct (in_lookbehind_class p); reflexivity.
  - destruct prev; rewrite ?andb_false_r; reflexivity.
Qed.

Lemma replaceable_from_S prev c rest i :
  repl_from prev (c :: rest) (S i) = repl_from (Some c) rest i.
Proof. unfold replaceable_from. destruct i; reflexivity. Qed.

Lemma lookup_map {A B} (f : A -> B) (l : list A) : forall i : nat,
  map f l !! i = f <$> l !! i.
Proof.
  induction l as [|a l IH]; intros [|i]; simpl; try reflexivity. apply IH.
Qed.

Lemma filter_map_S (f : nat -> bool) (l : list nat) :
  List.filter f (map S l) = map S (List.filter (fun i => f (S i)) l).
Proof.
  induction l as [|a l IH]; simpl; [reflexivity|].
  rewrite IH. destruct (f (S a)); reflexivity.
Qed.

Lemma pos_spec s : forall prev,
  pos' prev s = List.filter (repl_from prev s) (seq 0 (List.length s)).
Proof.
  induction s as [|c rest IH]; intros prev; [reflexivity|].
  cbn [pos List.length seq List.filter].
  rewrite <- quote_re_spec, <- seq_shift, filter_map_S.
  rewrite (List.filter_ext _ (repl_from (Some c) rest))
    by (intros i; apply replaceable_from_S).
  rewrite <- IH. reflexivity.
Qed.

Lemma marks_length s : forall n prev, List.length (marks' n prev s) = List.length s.
Proof.
  induction s as [|c rest IH]; intros n prev; [reflexivity|].
  cbn [marks]. destruct (qre prev (c :: rest)); simpl; rewrite IH; reflexivity.
Qed.

(** The [j]-th replaced quote becomes the mark number [n + 1 + j]. *)
Lemma marks_lookup_pos s : forall n prev (j p : nat),
  pos' prev s !! j = Some p ->
  marks' n prev s !! p = Some (mark (n + 1 + Z.of_nat j)).
Proof.
  induction s as [|c rest IH]; intros n prev j p Hj; [discriminate|].
  cbn [pos marks] in *.
  destruct (qre prev (c :: rest)).
  - destruct j as [|j].
    + injection Hj as <-. simpl. do 2 f_equal. lia.
    + change (map S (pos' (Some c) rest) !! j = Some p) in Hj.
      rewrite lookup_map in Hj.
      destruct (pos' (Some c) rest !! j) as [p'|] eqn:E; [|discriminate].
      injection Hj as <-.
      change (marks' (n + 1) (Some c) rest !! p'
              = Some (mark (n + 1 + Z.of_nat (S j)))).
      rewrite (IH _ _ _ _ E). do 2 f_equal. lia.
  - rewrite lookup_map in Hj.
    destruct (pos' (Some c) rest !! j) as [p'|] eqn:E; [|discriminate].
    injection Hj as <-.
    change (marks' n (Some c) rest !! p' = Some (mark (n + 1 + Z.of_nat j))).
    apply IH, E.
Qed.

(** Every other position keeps its character. *)
Lemma marks_lookup_other s : forall n prev (p : nat),
  repl_from prev s p = false ->
  marks' n prev s !! p = s !! p.
Proof.
  induction s as [|c rest IH]; intros n prev p Hp; [reflexivity|].
  cbn [marks]. destruct p as [|p].
  - rewrite quote_re_spec, Hp. reflexivity.
  - rewrite replaceable_from_S in Hp.
    destruct (qre prev (c :: rest)).
    + change (marks' (n + 1) (Some c) rest !! p = rest !! p). apply IH, Hp.
    + change (marks' n (Some c) rest !! p = rest !! p). apply IH, Hp.
Qed.

Lemma pos_lookup_replaceable prev s (p : nat) :
  repl_from prev s p = true -> exists j : nat, pos' prev s !! j = Some p.
Proof.
  intros Hp. apply list_elem_of_lookup_1, list_elem_of_In.
  rewrite pos_spec. apply List.filter_In. split; [|exact Hp].
  apply in_seq. unfold replaceable_from in Hp.
  destruct (s !! p) eqn:E; [|discriminate].
  apply lookup_lt_Some in E. lia.
Qed.

(** *** Counting the marks *)


Lemma opening_among_even b k : opening_among b (2 * k) = k.
Proof.
  induction k as [|k IH]; [reflexivity|].
  replace (2 * S k)%nat with (S (S (2 * k))) by lia.
  cbn [opening_among]. rewrite negb_involutive, IH.
  destruct b; simpl; lia.
Qed.

Lemma marks_count_open s : forall n prev,
  count_occ Z.eq_dec (marks' n prev s) open_mark
  = (count_occ Z.eq_dec s open_mark
     + opening_among (Z.even n) (List.length (pos' prev s)))%nat.
Proof.
  induction s as [|c rest IH]; intros n prev; [reflexivity|].
  cbn [marks pos]. destruct (qre prev (c :: rest)) eqn:E.
  - apply quote_re_dquote in E. subst c.
    cbn [List.length opening_among]. rewrite length_map.
    rewrite (count_occ_cons_neq _ rest) by discriminate.
    unfold mark at 1. rewrite Z.add_1_r, Z.odd_succ.
    destruct (Z.even n) eqn:En.
    + rewrite count_occ_cons_eq by reflexivity.
      rewrite IH, Z.even_succ, <- Z.negb_even, En. simpl. lia.
    + rewrite count_occ_cons_neq by discriminate.
      rewrite IH, Z.even_succ, <- Z.negb_even, En. simpl. lia.
  - rewrite length_map.
    destruct (Z.eq_dec c open_mark) as [->|Hne].
    + rewrite !count_occ_cons_eq by reflexivity. rewrite IH. lia.
    + rewrite !count_occ_cons_neq by assumption. apply IH.
Qed.

Lemma marks_count_close s : forall n prev,
  count_occ Z.eq_dec (marks' n prev s) close_mark
  = (count_occ Z.eq_dec s close_mark
     + opening_among (Z.odd n) (List.length (pos' prev s)))%nat.
Proof.
  induction s as [|c rest IH]; intros n prev; [reflexivity|].
  cbn [marks pos]. destruct (qre prev (c :: rest)) eqn:E.
  - apply quote_re_dquote in E. subst c.
    cbn [List.length opening_among]. rewrite length_map.
    rewrite (count_occ_cons_neq _ rest) by discriminate.
    unfold mark at 1. rewrite Z.add_1_r, Z.odd_succ, <- Z.negb_odd.
    destruct (Z.odd n) eqn:En; cbn [negb].
    + rewrite count_occ_cons_eq by reflexivity.
      rewrite IH, Z.odd_succ, <- Z.negb_odd, En. simpl. lia.
    + rewrite count_occ_cons_neq by discriminate.
      rewrite IH, Z.odd_succ, <- Z.negb_odd, En. simpl. lia.
  - rewrite length_map.
    destruct (Z.eq_dec c close_mark) as [->|Hne].
    + rewrite !count_occ_cons_eq by reflexivity. rewrite IH. lia.
    + rewrite !count_occ_cons_neq by assumption. apply IH.
Qed.

(** The character at every position of the scan's result. *)
Lemma marks_lookup s : forall n prev (i : nat),
  marks' n prev s !! i
  = if repl_from prev s i
    then Some (mark (n + 1 + Z.of_nat
                 (List.length (List.filter (repl_from prev s) (seq 0 i)))))
    else s !! i.
Proof.
  induction s as [|c rest IH]; intros n prev i.
  - unfold replaceable_from. rewrite !lookup_nil. reflexivity.
  - destruct i as [|i].
    + cbn [marks seq List.filter List.length].
      rewrite <- quote_re_spec.
      destruct (qre prev (c :: rest)); [|reflexivity].
      simpl. do 2 f_equal. lia.
    + rewrite replaceable_from_S.
      cbn [seq List.filter]. rewrite <- seq_shift, filter_map_S.
      rewrite (List.filter_ext _ (repl_from (Some c) rest))
        by (intros k; apply replaceable_from_S).
      rewrite <- quote_re_spec. cbn [marks].
      destruct (qre prev (c :: rest)).
      * change ((mark (n + 1) :: marks' (n + 1) (Some c) rest) !! S i)
          with (marks' (n + 1) (Some c) rest !! i).
        rewrite IH. cbn [List.length]. rewrite length_map.
        destruct (repl_from (Some c) rest i); [|reflexivity].
        do 2 f_equal. lia.
      * change ((c :: marks' n (Some c) rest) !! S i)
          with (marks' n (Some c) rest !! i).
        rewrite IH, length_map. reflexivity.
Qed.

Lemma marks_no_quote s : forall n prev,
  dquote ∉ s -> marks' n prev s = s.
Proof.
  induction s as [|c rest IH]; intros n prev Hq; [reflexivity|].
  cbn [marks]. destruct (qre prev (c :: rest)) eqn:E.
  - apply quote_re_dquote in E. subst c. exfalso. apply Hq. left.
  - f_equal. apply IH. intros H. apply Hq. right. exact H.
Qed.

(** The characters at the replaced positions, in document order. *)
Lemma marks_at_positions s : forall n prev,
  map (fun p : nat => marks' n prev s !! p) (pos' prev s)
  = map (fun j => Some (mark (n + 1 + Z.of_nat j)))
        (seq 0 (List.length (pos' prev s))).
Proof.
  intros n prev. apply list_eq. intros j.
  rewrite !lookup_map.
  destruct (pos' prev s !! j) as [p|] eqn:E.
  - rewrite (lookup_seq_lt _ _ j) by (apply lookup_lt_Some in E; exact E).
    simpl. f_equal. apply marks_lookup_pos, E.
  - rewrite (lookup_seq_ge _ _ j) by (apply lookup_ge_None in E; exact E).
    reflexivity.
Qed.

End NormalizerFacts.

(** *** The translation table *)

Lemma punct_map_eq : punct_map = list_to_map (zip punct_ascii punct_full).
Proof. reflexivity. Qed.

Lemma punct_map_lookup c d :
  punct_map !! c = Some d -> (c, d) ∈ zip punct_ascii punct_full.
Proof. rewrite punct_map_eq. apply elem_of_list_to_map_2. Qed.

(** A character outside the table is neither produced nor consumed. *)
Lemma translate_char_fix x c :
  x ∉ punct_ascii -> x ∉ punct_full ->
  (default c (punct_map !! c) = x) <-> (c = x).
Proof.
  intros Ha Hf. destruct (punct_map !! c) as [d|] eqn:E; simpl; [|tauto].
  apply punct_map_lookup in E.
  pose proof (elem_of_zip_l _ _ _ _ E). pose proof (elem_of_zip_r _ _ _ _ E).
  split; intros ->; contradiction.
Qed.

Lemma translate_length t : List.length (translate punct_map t) = List.length t.
Proof. apply length_map. Qed.

Lemma translate_count x t :
  x ∉ punct_ascii -> x ∉ punct_full ->
  count_occ Z.eq_dec (translate punct_map t) x = count_occ Z.eq_dec t x.
Proof.
  intros Ha Hf. induction t as [|c t IH]; [reflexivity|].
  cbn [translate map]. fold (translate punct_map t).
  pose proof (translate_char_fix x c Ha Hf) as Hc.
  destruct (Z.eq_dec c x) as [->|Hne].
  - rewrite !count_occ_cons_eq; [rewrite IH; reflexivity|reflexivity|tauto].
  - rewrite !count_occ_cons_neq; [exact IH|assumption|tauto].
Qed.

Ltac not_in_table :=
  let H := fresh in
  intros H%list_elem_of_In; vm_compute in H; intuition discriminate.

Lemma open_mark_not_punct : (open_mark ∉ punct_ascii) /\ (open_mark ∉ punct_full).
Proof. split; not_in_table. Qed.

Lemma close_mark_not_punct : (close_mark ∉ punct_ascii) /\ (close_mark ∉ punct_full).
Proof. split; not_in_table. Qed.

Lemma dquote_not_punct : (dquote ∉ punct_ascii) /\ (dquote ∉ punct_full).
Proof. split; not_in_table. Qed.

(** The table leaves the double quotes where they are. *)
Lemma translate_keeps_dquote t (i : nat) :
  (translate punct_map t !! i = Some dquote) <-> (t !! i = Some dquote).
Proof.
  unfold translate. rewrite lookup_map.
  destruct (t !! i) as [c|]; simpl; [|tauto].
  destruct dquote_not_punct as [Ha Hf].
  pose proof (translate_char_fix dquote c Ha Hf) as Hc.
  split; intros [= E]; f_equal; tauto.
Qed.

(** ** Claims on the Punctuation Normalizer *)

Section NormalizerClaims.

Variable uni_alnum : Z -> bool.


(** The table as the code builds it, entry by entry. *)
Lemma punct_table_values :
  map (fun c => punct_map !! c) punct_ascii = map Some punct_full.
Proof. reflexivity. Qed.

(** Every character of the table is replaced by its entry, whatever
    stands around it. *)
Lemma convert_maps_punctuation t w (i : nat) c :
  t !! i = Some c -> c ∈ punct_ascii ->
  exists out,
    (convert_punctuation_to_chinese uni_alnum t w).1 = Return out
    /\ out !! i = punct_map !! c.
Proof.
  intros Hi Hc. destruct (convert_run uni_alnum t w) as (w' & E & _).
  rewrite E. eexists. split; [reflexivity|].
  assert (Hs : translate punct_map t !! i = punct_map !! c).
  { unfold translate. rewrite lookup_map, Hi. simpl.
    apply list_elem_of_In in Hc. vm_compute in Hc.
    repeat (destruct Hc as [<-|Hc]; [reflexivity|]). destruct Hc. }
  rewrite marks_lookup_other; [exact Hs|].
  unfold replaceable_from. rewrite Hs.
  apply list_elem_of_In in Hc. vm_compute in Hc.
  repeat (destruct Hc as [<-|Hc]; [reflexivity|]). destruct Hc.
Qed.

(** C1 (the code departs from the claim): the table pairs the
    less-than sign with the closing angle mark and the greater-than sign
    with the opening one, so the normalizer turns the two signs into
    the closing mark followed by the opening mark, while the round and
    the square brackets keep their direction. *)
Theorem convert_angle_brackets w :
  (convert_punctuation_to_chinese uni_alnum (u "<>") w).1 = Return (u "》《")
  /\ (convert_punctuation_to_chinese uni_alnum (u "()[]") w).1 = Return (u "（）【】").
Proof.
  split.
  - destruct (convert_run uni_alnum (u "<>") w) as (w' & E & _).
    rewrite E. cbn [fst]. f_equal. apply marks_no_quote.
    intros H%list_elem_of_In. vm_compute in H. intuition discriminate.
  - destruct (convert_run uni_alnum (u "()[]") w) as (w' & E & _).
    rewrite E. cbn [fst]. f_equal. apply marks_no_quote.
    intros H%list_elem_of_In. vm_compute in H. intuition discriminate.
Qed.

(** C5 (as amended): the normalizer returns a text as long as its input
    in which, the ASCII punctuation having been mapped, a double quote
    is replaced by a mark of the alternation exactly when it comes right
    after a CJK ideograph or one of the six full-width marks of the
    lookbehind class, or has no word character on either side; every
    other character, every other double quote among them, is what the
    punctuation mapping made of it. *)
Theorem convert_replaces_quotes t w :
  exists out,
    (convert_punctuation_to_chinese uni_alnum t w).1 = Return out
    /\ List.length out = List.length t
    /\ forall i : nat,
         out !! i
         = if replaceable uni_alnum (translate punct_map t) i
           then Some (mark (Z.of_nat
                        (quotes_before uni_alnum (translate punct_map t) i) + 1))
           else translate punct_map t !! i.
Proof.
  destruct (convert_run uni_alnum t w) as (w' & E & _).
  rewrite E. eexists. split; [reflexivity|]. split.
  - rewrite marks_length. apply translate_length.
  - intros i. rewrite marks_lookup. unfold replaceable, quotes_before.
    destruct (replaceable_from uni_alnum None (translate punct_map t) i);
      [|reflexivity].
    rewrite (Z.add_comm (0 + 1)). reflexivity.
Qed.

(** C6 (as amended): when exactly [2 * k] double quotes meet the
    replacement condition, the output has [k] opening and [k] closing
    marks more than the input had, and the characters at the replaced
    positions, in document order, are opening, closing, opening, ... *)
Theorem convert_quote_alternation t w (k : nat) :
  List.length (replaced_positions uni_alnum (translate punct_map t))
    = (2 * k)%nat ->
  exists out,
    (convert_punctuation_to_chinese uni_alnum t w).1 = Return out
    /\ count_occ Z.eq_dec out open_mark
       = (count_occ Z.eq_dec t open_mark + k)%nat
    /\ count_occ Z.eq_dec out close_mark
       = (count_occ Z.eq_dec t close_mark + k)%nat
    /\ map (fun p : nat => out !! p)
           (replaced_positions uni_alnum (translate punct_map t))
       = map Some (alternating_marks (2 * k)).
Proof.
  intros Hk. destruct (convert_run uni_alnum t w) as (w' & E & _).
  rewrite E. eexists. split; [reflexivity|].
  unfold replaced_positions, replaceable in *.
  rewrite <- pos_spec in *.
  destruct open_mark_not_punct as [Ho1 Ho2].
  destruct close_mark_not_punct as [Hc1 Hc2].
  repeat split.
  - rewrite marks_count_open, Hk, opening_among_even, translate_count by assumption.
    reflexivity.
  - rewrite marks_count_close, Hk, opening_among_even, translate_count by assumption.
    reflexivity.
  - rewrite marks_at_positions, Hk. unfold alternating_marks.
    rewrite List.map_map. apply List.map_ext. intros j. do 2 f_equal. lia.
Qed.

(** C7: the alternation counter is fresh on every invocation: after any
    calls of the normalizer on any texts, from any world, a call
    returns what it returns in the empty world, that is the scan that
    starts counting at zero. *)
Theorem convert_counter_is_fresh (ts : list text) t w :
  (convert_punctuation_to_chinese uni_alnum t (convert_each uni_alnum ts w).2).1
  = (convert_punctuation_to_chinese uni_alnum t empty_world).1
  /\ (convert_punctuation_to_chinese uni_alnum t w).1
     = Return (marks uni_alnum 0 None (translate punct_map t)).
Proof.
  split.
  - destruct (convert_run uni_alnum t (convert_each uni_alnum ts w).2)
      as (w1 & E1 & _).
    destruct (convert_run uni_alnum t empty_world) as (w2 & E2 & _).
    rewrite E1, E2. reflexivity.
  - destruct (convert_run uni_alnum t w) as (w1 & E1 & _).
    rewrite E1. reflexivity.
Qed.

End NormalizerClaims.

(** ** Properties of the Chapter Boundary Trimmer *)

Lemma splitlines_from_nil s : forall cur,
  splitlines_from cur s = [] -> cur = [] /\ s = [].
Proof.
  induction s as [|c rest IH]; intros cur H.
  - destruct cur; [split; reflexivity|discriminate].
  - cbn [splitlines_from] in H. destruct (is_linebreak c); [discriminate|].
    apply IH in H. destruct H as [H _]. destruct cur; discriminate.
Qed.

Lemma join_cons sep x y l :
  join sep (x :: y :: l) = x ++ sep ++ join sep (y :: l).
Proof. reflexivity. Qed.

(** A text whose only line boundary is the line feed, and which does
    not end with one, is the join of its lines. *)
Lemma splitlines_from_join s : forall cur,
  forallb (fun c => negb (is_linebreak c) || (c =? LF)) s = true ->
  last s <> Some LF ->
  join [LF] (splitlines_from cur s) = cur ++ s.
Proof.
  induction s as [|c rest IH]; intros cur Hall Hlast.
  - destruct cur; simpl; [reflexivity|]. rewrite app_nil_r. reflexivity.
  - cbn [forallb] in Hall. apply andb_prop in Hall. destruct Hall as [Hc Hrest].
    assert (Hlast' : last rest <> Some LF).
    { destruct rest as [|c2 rest2]; [discriminate|]. exact Hlast. }
    cbn [splitlines_from]. destruct (is_linebreak c) eqn:Eb.
    + simpl in Hc. apply Z.eqb_eq in Hc. subst c.
      destruct rest as [|c2 rest2]; [exfalso; apply Hlast; reflexivity|].
      change ((LF =? CR) && (c2 =? LF)) with false. cbv iota.
      specialize (IH [] Hrest Hlast').
      destruct (splitlines_from [] (c2 :: rest2)) as [|x l] eqn:E.
      * apply splitlines_from_nil in E. destruct E as [_ E]. discriminate.
      * rewrite join_cons, IH. reflexivity.
    + rewrite (IH (cur ++ [c]) Hrest Hlast'), <- app_assoc. reflexivity.
Qed.

Lemma lf_separated_join s :
  lf_separated s = true -> join [LF] (splitlines s) = s.
Proof.
  unfold lf_separated. intros H. apply andb_prop in H. destruct H as [Hall Hl].
  apply (splitlines_from_join s []); [exact Hall|].
  apply negb_true_iff, bool_decide_eq_false in Hl. exact Hl.
Qed.

Lemma scan_start_bounds title lines : forall i start : nat,
  (start <= i)%nat ->
  (scan_start title lines i start <= i + List.length lines)%nat.
Proof.
  induction lines as [|l lines IH]; intros i start Hle; cbn [scan_start].
  - simpl. lia.
  - destruct (exceeds_threshold _).
    + specialize (IH (S i) (S i) (le_n _)). simpl. lia.
    + simpl. lia.
Qed.

Lemma scan_end_cases lines idxs : forall stop,
  scan_end lines idxs stop = stop \/ In (scan_end lines idxs stop) idxs.
Proof.
  induction idxs as [|i idxs IH]; intros stop; cbn [scan_end]; [left; reflexivity|].
  destruct (lines !! i) as [l|]; [|left; reflexivity].
  destruct (end_marker_search l); [|left; reflexivity].
  right. destruct (IH i) as [->|H]; [left; reflexivity|right; exact H].
Qed.

Lemma range_down_In hi lo i :
  In i (range_down hi lo) -> (lo <= i < lo + (hi - lo))%nat.
Proof. unfold range_down. rewrite <- in_rev, in_seq. tauto. Qed.

Lemma trim_bounds_ok lines title :
  ((trim_bounds lines title).1 <= (trim_bounds lines title).2
   <= List.length lines)%nat.
Proof.
  unfold trim_bounds. cbn [fst snd].
  pose proof (scan_start_bounds title lines 0 0 (le_n _)) as Hs. simpl in Hs.
  set (start := scan_start title lines 0 0) in *.
  destruct (scan_end_cases lines (range_down (List.length lines) start)
              (List.length lines)) as [->|H]; [lia|].
  apply range_down_In in H. lia.
Qed.

Lemma slice_split {A} (l : list A) (start stop : nat) :
  (start <= stop)%nat ->
  l = take start l ++ slice l start stop ++ drop stop l.
Proof.
  intros H. unfold slice.
  rewrite <- (take_drop start l) at 1. f_equal.
  rewrite <- (take_drop (stop - start) (drop start l)) at 1. f_equal.
  rewrite drop_drop. f_equal. lia.
Qed.

Lemma scan_end_no_marker lines :
  forallb (fun l => negb (end_marker_search l)) lines = true ->
  scan_end lines (range_down (List.length lines) 0) (List.length lines)
  = List.length lines.
Proof.
  intros H. unfold range_down. rewrite Nat.sub_0_r.
  destruct (List.length lines) as [|n] eqn:E; [reflexivity|].
  rewrite seq_S, rev_app_distr. cbn [rev app Nat.add scan_end].
  destruct (lines !! n) as [l|] eqn:El; [|reflexivity].
  rewrite forallb_forall in H.
  assert (Hin : In l lines).
  { apply list_elem_of_In, list_elem_of_lookup. exists n. exact El. }
  specialize (H l Hin). apply negb_true_iff in H. rewrite H. reflexivity.
Qed.

Lemma clean_without_matches content title :
  no_title_echo content title = true ->
  no_end_marker content = true ->
  clean_chapter_content content title = join [LF] (splitlines content).
Proof.
  unfold no_title_echo, no_end_marker, clean_chapter_content.
  intros Hecho Hmark.
  destruct (splitlines content) as [|l ls] eqn:E.
  - unfold splitlines in E. apply splitlines_from_nil in E.
    destruct E as [_ ->]. reflexivity.
  - unfold trim_bounds.
    assert (Hs : scan_start title (l :: ls) 0 0 = O).
    { cbn [scan_start]. cbn [forallb] in Hecho.
      apply andb_prop in Hecho. destruct Hecho as [H0 _].
      apply negb_true_iff in H0. rewrite H0. reflexivity. }
    rewrite Hs, (scan_end_no_marker _ Hmark).
    unfold slice. rewrite drop_0, Nat.sub_0_r, take_ge by lia. reflexivity.
Qed.

(** C4 (as amended): when no line echoes the title and no line holds
    an end marker, the trimmer returns the join, by line feeds, of the
    lines of its input; for an input whose only line boundary is the
    line feed and which does not end with one, that is the input
    itself, also when the trimmer runs a second time on its own
    result. *)
Theorem clean_unmatched_content content title :
  no_title_echo content title = true ->
  no_end_marker content = true ->
  clean_chapter_content content title = join [LF] (splitlines content)
  /\ (lf_separated content = true ->
      clean_chapter_content content title = content
      /\ clean_chapter_content (clean_chapter_content content title) title
         = content).
Proof.
  intros Hecho Hmark.
  pose proof (clean_without_matches content title Hecho Hmark) as H.
  split; [exact H|]. intros Hlf.
  rewrite (lf_separated_join content Hlf) in H.
  rewrite !H. split; reflexivity.
Qed.

(** C10: the trimmer's result is the join, by line feeds, of a slice
    [lines[start:stop]] of the lines of its input, with
    [start <= stop <= len(lines)]: the lines are [start] lines that
    were cut, the lines that were kept, and the lines cut at the end. *)
Theorem clean_chapter_content_slice content title :
  exists (start stop : nat) (cut_before cut_after : list text),
    (start <= stop <= List.length (splitlines content))%nat
    /\ clean_chapter_content content title
       = join [LF] (slice (splitlines content) start stop)
    /\ splitlines content
       = cut_before ++ slice (splitlines content) start stop ++ cut_after
    /\ List.length cut_before = start.
Proof.
  unfold clean_chapter_content.
  destruct (splitlines content) as [|l ls] eqn:E.
  - unfold splitlines in E. apply splitlines_from_nil in E. destruct E as [_ ->].
    exists O, O, [], []. repeat split; simpl; lia.
  - pose proof (trim_bounds_ok (l :: ls) title) as Hb.
    destruct (trim_bounds (l :: ls) title) as [start stop]. cbn [fst snd] in Hb.
    exists start, stop, (take start (l :: ls)), (drop stop (l :: ls)).
    split; [exact Hb|]. split; [reflexivity|]. split.
    + apply slice_split. lia.
    + rewrite length_take. lia.
Qed.

(** ** Properties of the adapters *)

Lemma correct_single_text_run t (c : corrector) w :
  correct_single_text t c w = (Return (corrected_or_original t (c t)), w).
Proof.
  unfold correct_single_text. unfold_M.
  destruct (c t) as [[corrected details|]|e]; reflexivity.
Qed.

Lemma check_sentences_run p ss : forall acc w,
  check_sentences p ss acc w
  = (Return (value_of (check_sentences p ss acc) []), w).
Proof.
  induction ss as [|sent rest IH]; intros acc w; [reflexivity|].
  unfold value_of. cbn [check_sentences].
  destruct (negb _).
  - rewrite (IH acc w), (IH acc empty_world). reflexivity.
  - unfold_M. destruct (p [sent]) as [[]|e].
    + destruct (existsb (Z.eqb le_char) sent).
      * rewrite (IH _ w), (IH _ empty_world). reflexivity.
      * rewrite (IH _ w), (IH _ empty_world). reflexivity.
    + rewrite (IH _ w), (IH _ empty_world). reflexivity.
Qed.

Lemma check_grammar_run t parser w :
  check_grammar_with_hanlp t parser w
  = (Return (value_of (check_grammar_with_hanlp t parser) []), w).
Proof.
  unfold value_of, check_grammar_with_hanlp. destruct parser as [p|]; [|reflexivity].
  unfold_M. rewrite (check_sentences_run p _ _ w),
    (check_sentences_run p _ _ empty_world). reflexivity.
Qed.

Ltac unfold_strict :=
  unfold mbind, mret, Strict.M_bind, Strict.M_ret, Strict.bind, Strict.ret,
    Strict.raise, Strict.call, Strict.try_except, Strict.print_exception in *.

(** On a service that returns or raises an instance of [Exception]
    that can be formatted, the adapter of [Strict] is the adapter of
    the pipeline. *)
Lemma correct_single_text_agrees t (c : corrector) w :
  Strict.correct_single_text t (fun x => Strict.of_outcome (c x)) w
  = (Strict.of_outcome (correct_single_text t c w).1,
     (correct_single_text t c w).2).
Proof.
  rewrite correct_single_text_run.
  unfold Strict.correct_single_text. unfold_strict.
  destruct (c t) as [[corrected details|]|[msg]]; reflexivity.
Qed.

(** C3 (as amended): what [correct_single_text] does for each answer
    of the correction service.  A pair is handed on.  A raise that is
    an instance of [Exception], as that of an answer that cannot be
    unpacked, is caught: the function returns the original text with
    an empty record list, unless formatting the exception for the
    message raises, and then that raise leaves the function.  A raise
    that is not an instance of [Exception] is not caught and leaves
    the function.  The world is left as it was. *)
Theorem correct_single_text_catches_exceptions t
    (corrector_instance : Strict.corrector) w :
  Strict.correct_single_text t corrector_instance w
  = (match corrector_instance t with
     | Strict.Returns (Unpacks corrected_text details) =>
       Strict.Returns (corrected_text, details)
     | Strict.Returns Other => Strict.Returns (t, [])
     | Strict.Raises e =>
       if Strict.is_Exception e
       then match Strict.formatted e with
            | inl _ => Strict.Returns (t, [])
            | inr e' => Strict.Raises e'
            end
       else Strict.Raises e
     end, w).
Proof.
  unfold Strict.correct_single_text. unfold_strict.
  destruct (corrector_instance t) as [[corrected details|]|e]; try reflexivity.
  destruct (Strict.is_Exception e); [|reflexivity].
  destruct (Strict.formatted e); reflexivity.
Qed.

(** ** Properties of the File Processor *)

Section PipelineFacts.

Variable uni_alnum : Z -> bool.

Lemma convert_value t w :
  exists fs',
    convert_punctuation_to_chinese uni_alnum t w
    = (Return (value_of (convert_punctuation_to_chinese uni_alnum t) []),
       World (files w) (locked w) (written w) fs').
Proof.
  destruct (convert_run uni_alnum t w) as (w' & E & Hf & Hl & Hw).
  destruct (convert_run uni_alnum t empty_world) as (w0 & E0 & _).
  exists (funcs w'). unfold value_of. rewrite E, E0. cbn [fst].
  destruct w'. simpl in *. subst. reflexivity.
Qed.


Lemma process_file_read input out corr parser w t :
  files w !! input = Some (File t) ->
  exists fs',
    process_file uni_alnum input out corr parser w
    = write_phase (basename input) out
        (pipeline uni_alnum (basename input) t corr parser)
        (World (files w) (locked w) (written w) fs').
Proof.
  intros H. unfold process_file, read_text, pipeline, write_phase. unfold_M.
  rewrite H.
  destruct (convert_value
              (clean_chapter_content t (chapter_title_of (basename input))) w)
    as (fs' & E).
  rewrite E. exists fs'.
  set (converted := value_of _ []).
  rewrite correct_single_text_run.
  unfold value_of at 1. rewrite correct_single_text_run. cbn [fst].
  destruct (corrected_or_original converted (corr converted))
    as [corrected errs].
  rewrite check_grammar_run. reflexivity.
Qed.

End PipelineFacts.

Lemma write_text_ok p t w :
  p ∉ locked w ->
  write_text p t w
  = (Return tt, World (<[p := File t]> (files w)) (locked w)
                      (written w ++ [(p, t)]) (funcs w)).
Proof. intros H. unfold write_text. rewrite decide_False by exact H. reflexivity. Qed.




Section FileProcessorFacts.

Variable uni_alnum : Z -> bool.






(** ** Properties of the Batch Driver *)




End FileProcessorFacts.

(** ** The claims at concrete inputs *)

Import Book.

(** C4, counterexample: the only line of a text that ends with a line
    feed shares nothing with the title and holds no marker, yet the
    trimmer drops the line feed. *)
Lemma clean_drops_final_line_feed :
  no_title_echo (u "a" ++ [LF]) (u "b") = true
  /\ no_end_marker (u "a" ++ [LF]) = true
  /\ clean_chapter_content (u "a" ++ [LF]) (u "b") = u "a"
  /\ clean_chapter_content (u "a" ++ [LF]) (u "b") <> u "a" ++ [LF].
Proof. repeat split; try (vm_compute; reflexivity). vm_compute. discriminate. Qed.

(** C4, instance: two body lines under the title [Title]. *)
Lemma clean_unmatched_content_witness :
  no_title_echo (u "body1" ++ [LF] ++ u "body2") (u "Title") = true
  /\ no_end_marker (u "body1" ++ [LF] ++ u "body2") = true
  /\ lf_separated (u "body1" ++ [LF] ++ u "body2") = true
  /\ clean_chapter_content (u "body1" ++ [LF] ++ u "body2") (u "Title")
     = u "body1" ++ [LF] ++ u "body2"
  /\ clean_chapter_content
       (clean_chapter_content (u "body1" ++ [LF] ++ u "body2") (u "Title"))
       (u "Title")
     = u "body1" ++ [LF] ++ u "body2".
Proof.
  assert (He : no_title_echo (u "body1" ++ [LF] ++ u "body2") (u "Title") = true)
    by (vm_compute; reflexivity).
  assert (Hm : no_end_marker (u "body1" ++ [LF] ++ u "body2") = true)
    by (vm_compute; reflexivity).
  assert (Hl : lf_separated (u "body1" ++ [LF] ++ u "body2") = true)
    by (vm_compute; reflexivity).
  destruct (clean_unmatched_content _ _ He Hm) as [_ H].
  destruct (H Hl) as [H1 H2].
  repeat split; assumption.
Defined.

(** C5, counterexample: in the text abc, quote, 中文, quote, the first
    quote stands right before an ideograph and is kept, because a
    letter precedes it; only the second quote is replaced. *)
Lemma quote_before_ideograph_is_kept :
  (u "abc" ++ [dquote] ++ u "中文" ++ [dquote]) !! 3%nat = Some dquote
  /\ in_lookbehind_class
       (default 0 ((u "abc" ++ [dquote] ++ u "中文" ++ [dquote]) !! 4%nat)) = true
  /\ (convert_punctuation_to_chinese alnum_cjk
        (u "abc" ++ [dquote] ++ u "中文" ++ [dquote]) empty_world).1
     = Return (u "abc" ++ [dquote] ++ u "中文" ++ [open_mark]).
Proof. repeat split; vm_compute; reflexivity. Qed.

(** C6, counterexample: a text that already holds an opening mark and
    has two quotes to replace ends with two opening marks, not one. *)
Lemma convert_keeps_marks_of_input :
  List.length
    (replaced_positions alnum_cjk
       (translate punct_map (u "「他说" ++ [dquote] ++ u "你好" ++ [dquote])))
  = (2 * 1)%nat
  /\ (convert_punctuation_to_chinese alnum_cjk
        (u "「他说" ++ [dquote] ++ u "你好" ++ [dquote]) empty_world).1
     = Return (u "「他说「你好」")
  /\ count_occ Z.eq_dec (u "「他说「你好」") open_mark = 2%nat.
Proof. repeat split; vm_compute; reflexivity. Qed.

(** C6, instance: four quotes to replace, each after an ideograph. *)
Lemma convert_quote_alternation_witness :
  exists out,
    (convert_punctuation_to_chinese alnum_cjk
       (u "他说" ++ [dquote] ++ u "你好" ++ [dquote] ++ u ",她答" ++ [dquote]
        ++ u "再见" ++ [dquote]) empty_world).1 = Return out
    /\ count_occ Z.eq_dec out open_mark
       = (count_occ Z.eq_dec
            (u "他说" ++ [dquote] ++ u "你好" ++ [dquote] ++ u ",她答" ++ [dquote]
             ++ u "再见" ++ [dquote]) open_mark + 2)%nat
    /\ count_occ Z.eq_dec out close_mark
       = (count_occ Z.eq_dec
            (u "他说" ++ [dquote] ++ u "你好" ++ [dquote] ++ u ",她答" ++ [dquote]
             ++ u "再见" ++ [dquote]) close_mark + 2)%nat
    /\ map (fun p : nat => out !! p)
           (replaced_positions alnum_cjk
              (translate punct_map
                 (u "他说" ++ [dquote] ++ u "你好" ++ [dquote] ++ u ",她答"
                  ++ [dquote] ++ u "再见" ++ [dquote])))
       = map Some (alternating_marks (2 * 2)).
Proof.
  apply (convert_quote_alternation alnum_cjk _ empty_world 2).
  vm_compute. reflexivity.
Defined.





(** C3, counterexample: the service is interrupted from the keyboard
    while it corrects; the [KeyboardInterrupt] is not an instance of
    [Exception], and leaves [correct_single_text]. *)
Lemma correct_single_text_interrupted :
  Strict.is_Exception Strict.KeyboardInterrupt = false
  /\ Strict.correct_single_text (u "你好")
       (fun _ => Strict.Raises Strict.KeyboardInterrupt) empty_world
     = (Strict.Raises Strict.KeyboardInterrupt, empty_world).
Proof. split; reflexivity. Qed.



(** ** The model on the examples of the specification *)

(** Two echoes of the title, two body lines, the footer. *)
Example trimmer_boundary :
  clean_chapter_content
    (u "Title" ++ [LF] ++ u "Title" ++ [LF] ++ u "body1" ++ [LF] ++ u "body2"
     ++ [LF] ++ u "本章完")
    (u "Title")
  = u "body1" ++ [LF] ++ u "body2".
Proof. vm_compute. reflexivity. Qed.

(** Values of [ratio], as [difflib] gives them. *)
Example ratio_values :
  map (fun p => ratio p.1 p.2)
      [(u "abcd", u "bcde"); (u "abxcd", u "abcd"); (u "a", u "b"); ([], [])]
  = [6 # 8; 8 # 9; 0 # 2; 1]%Q.
Proof. vm_compute. reflexivity. Qed.

(** A chapter file from the title to the footer: one write, of the
    trimmed and normalized text, and no report. *)
Example end_to_end :
  written
    (process_file alnum_cjk (u "in/01_First Chapter.txt") (u "out")
       corrector_clean None
       (World {[ u "in/01_First Chapter.txt"
                 := File (u "First Chapter" ++ [LF] ++ u "First Chapter" ++ [LF]
                          ++ u "Hello,world!" ++ [LF] ++ u "本章完") ]}
              ∅ [] [])).2
  = [(u "out/01_First Chapter.txt", u "Hello，world！")].
Proof. vm_compute. reflexivity. Qed.

(** A sentence with the particle is reported when the parser accepts
    it, and skipped when the parser raises on it or when it is shorter
    than three characters. *)
Example grammar_rule :
  value_of (check_grammar_with_hanlp (u "他走了。好了!天黑了吗")
              (Some (fun ss => if bool_decide (ss = [u "天黑了吗"])
                               then Raise (Exc (u "parse error"))
                               else Return tt))) []
  = [issue_of (u "他走了")].
Proof. vm_compute. reflexivity. Qed.

(** * Part III: further properties *)

(** ** The grammar heuristic with a parser *)

Lemma check_sentences_filter p ss : forall acc w,
  check_sentences p ss acc w
  = (Return (acc ++ map issue_of (List.filter (reported p) ss)), w).
Proof.
  induction ss as [|sent rest IH]; intros acc w.
  - cbn. rewrite app_nil_r. reflexivity.
  - cbn [check_sentences List.filter]. unfold reported, in_range.
    destruct ((3 <=? List.length sent)%nat && (List.length sent <=? 400)%nat);
      cbn [negb andb].
    + unfold_M. destruct (p [sent]) as [[]|e]; cbn [returns andb].
      * destruct (existsb (Z.eqb le_char) sent).
        -- rewrite IH. cbn [map]. rewrite <- app_assoc. reflexivity.
        -- apply IH.
      * apply IH.
    + apply IH.
Qed.

Lemma check_grammar_filter t p w :
  check_grammar_with_hanlp t (Some p) w
  = (Return (map issue_of (List.filter (reported p) (sentences_of t))), w).
Proof.
  unfold check_grammar_with_hanlp. unfold_M.
  rewrite check_sentences_filter. reflexivity.
Qed.

(** The sentence loop under raises of every class: it ends with the
    first raise that its handler does not absorb, and returns the
    issues of the reported sentences if there is none. *)
Lemma strict_check_sentences_run p ss : forall acc w,
  Strict.check_sentences p ss acc w
  = (match Strict.escape_of p ss with
     | Some e => Strict.Raises e
     | None =>
       Strict.Returns (acc ++ map issue_of (List.filter (Strict.reported p) ss))
     end, w).
Proof.
  induction ss as [|sent rest IH]; intros acc w.
  - cbn. rewrite app_nil_r. reflexivity.
  - cbn [Strict.check_sentences Strict.escape_of List.filter].
    unfold Strict.reported, Strict.leaves_handler, in_range.
    destruct ((3 <=? List.length sent)%nat && (List.length sent <=? 400)%nat);
      cbn [negb andb]; [|apply IH].
    unfold_strict. destruct (p [sent]) as [[]|e]; cbn [Strict.returns andb].
    + destruct (existsb (Z.eqb le_char) sent).
      * rewrite IH. cbn [map]. rewrite <- app_assoc. reflexivity.
      * apply IH.
    + destruct (Strict.is_Exception e); [|reflexivity].
      destruct (Strict.formatted e); [apply IH|reflexivity].
Qed.

Lemma strict_check_grammar_run t p w :
  Strict.check_grammar_with_hanlp t (Some p) w
  = (match Strict.escape_of p (sentences_of t) with
     | Some e => Strict.Raises e
     | None =>
       Strict.Returns (map issue_of (List.filter (Strict.reported p) (sentences_of t)))
     end, w).
Proof.
  unfold Strict.check_grammar_with_hanlp. unfold_strict.
  rewrite strict_check_sentences_run. reflexivity.
Qed.

(** On a parser that returns or raises an instance of [Exception]
    that can be formatted, the adapter of [Strict] is the adapter of
    the pipeline. *)
Lemma check_grammar_agrees t (p : list text -> outcome unit) w :
  Strict.check_grammar_with_hanlp t (Some (fun ss => Strict.of_outcome (p ss))) w
  = (Strict.of_outcome (check_grammar_with_hanlp t (Some p) w).1,
     (check_grammar_with_hanlp t (Some p) w).2).
Proof.
  rewrite check_grammar_filter, strict_check_grammar_run. cbn [fst snd].
  assert (He : forall ss,
             Strict.escape_of (fun ss => Strict.of_outcome (p ss)) ss = None).
  { induction ss as [|s ss IH]; [reflexivity|]. cbn [Strict.escape_of].
    destruct (in_range s); [|exact IH].
    destruct (p [s]) as [[]|[msg]]; exact IH. }
  rewrite He. cbn [Strict.of_outcome]. do 3 f_equal.
  apply List.filter_ext. intros s. unfold Strict.reported, reported.
  destruct (p [s]); reflexivity.
Qed.

(** X1: with a parser, whatever it raises, [check_grammar_with_hanlp]
    leaves the world alone and goes through the sentences in the order
    of the text.  A raise of the parser that is an instance of
    [Exception] and can be formatted skips the sentence.  The first
    other raise, on a sentence whose length is within 3..400, leaves
    the function.  If there is none, the function returns one issue
    for each sentence whose length is within 3..400, on which the
    parser does not raise, and which holds the particle. *)
Theorem check_grammar_reports t (p : list text -> Strict.result unit) w :
  Strict.check_grammar_with_hanlp t (Some p) w
  = (match Strict.escape_of p (sentences_of t) with
     | Some e => Strict.Raises e
     | None =>
       Strict.Returns (map issue_of (List.filter (Strict.reported p) (sentences_of t)))
     end, w).
Proof. apply strict_check_grammar_run. Qed.

(** X2: the parser is only consulted on sentences whose length is
    within 3..400: two parsers that return or raise alike on those
    sentences give the same issues, whatever they do on the others. *)
Theorem check_grammar_parser_in_range t p1 p2 w :
  (forall sent, in_range sent = true -> returns (p1 [sent]) = returns (p2 [sent])) ->
  check_grammar_with_hanlp t (Some p1) w = check_grammar_with_hanlp t (Some p2) w.
Proof.
  intros H. rewrite !check_grammar_filter. do 3 f_equal.
  apply List.filter_ext. intros sent. unfold reported.
  destruct (in_range sent) eqn:E; [|reflexivity].
  rewrite (H sent E). reflexivity.
Qed.

(** *** What the sentences are *)

Lemma lstrip_incl s c : In c (lstrip s) -> In c s.
Proof.
  induction s as [|x s IH]; [intros []|].
  cbn [lstrip]. destruct (is_space x); [|tauto].
  intros H. right. apply IH, H.
Qed.

Lemma strip_incl s c : In c (strip s) -> In c s.
Proof.
  unfold strip, rstrip. intros H.
  apply in_rev, lstrip_incl, in_rev in H. apply lstrip_incl, H.
Qed.

Lemma lstrip_fixed c s : is_space c = false -> lstrip (c :: s) = c :: s.
Proof. intros H. cbn [lstrip]. rewrite H. reflexivity. Qed.

Lemma lstrip_head s :
  match lstrip s with c :: _ => is_space c = false | [] => True end.
Proof.
  induction s as [|x s IH]; [exact I|].
  cbn [lstrip]. destruct (is_space x) eqn:E; [exact IH|exact E].
Qed.

Lemma lstrip_idem s : lstrip (lstrip s) = lstrip s.
Proof.
  pose proof (lstrip_head s) as H.
  destruct (lstrip s) as [|c r]; [reflexivity|]. apply lstrip_fixed, H.
Qed.

Lemma lstrip_snoc l c : is_space c = false -> lstrip (l ++ [c]) = lstrip l ++ [c].
Proof.
  intros H. induction l as [|x l IH]; cbn [lstrip app].
  - rewrite H. reflexivity.
  - destruct (is_space x); [exact IH|reflexivity].
Qed.

(** Stripping what is stripped changes nothing. *)
Lemma strip_idem s : strip (strip s) = strip s.
Proof.
  unfold strip. pose proof (lstrip_head s) as H.
  destruct (lstrip s) as [|c r]; [reflexivity|].
  assert (Hr : rstrip (c :: r) = c :: rev (lstrip (rev r))).
  { unfold rstrip. cbn [rev]. rewrite lstrip_snoc by exact H.
    rewrite rev_app_distr. reflexivity. }
  rewrite Hr, (lstrip_fixed c _ H), <- Hr.
  unfold rstrip. rewrite rev_involutive, lstrip_idem. reflexivity.
Qed.

Lemma re_split_from_pieces t : forall cur s,
  In s (re_split_from cur t) ->
  (forall c, In c s -> In c cur \/ In c t)
  /\ (forallb (fun c => negb (is_ender c)) cur = true ->
      forallb (fun c => negb (is_ender c)) s = true).
Proof.
  induction t as [|x t IH]; intros cur s Hs; cbn [re_split_from] in Hs.
  - destruct Hs as [<-|[]]. split; [tauto|tauto].
  - destruct (existsb (Z.eqb x) sentence_enders) eqn:E.
    + destruct Hs as [<-|Hs]; [split; tauto|].
      destruct (IH [] s Hs) as [H1 H2]. split.
      * intros c Hc. destruct (H1 c Hc) as [[]|H]. right. right. exact H.
      * intros _. apply H2. reflexivity.
    + destruct (IH (cur ++ [x]) s Hs) as [H1 H2]. split.
      * intros c Hc. destruct (H1 c Hc) as [H|H]; [|right; right; exact H].
        apply in_app_or in H. destruct H as [H|[<-|[]]]; [left; exact H|].
        right. left. reflexivity.
      * intros Hcur. apply H2. rewrite forallb_app, Hcur. cbn [forallb].
        unfold is_ender. rewrite E. reflexivity.
Qed.

Lemma filter_none {A} (f : A -> bool) (l : list A) :
  (forall x, In x l -> f x = false) -> List.filter f l = [].
Proof.
  induction l as [|a l IH]; intros H; [reflexivity|].
  cbn [List.filter]. rewrite (H a (or_introl eq_refl)).
  apply IH. intros x Hx. apply H. right. exact Hx.
Qed.

Lemma sentences_of_facts t s :
  In s (sentences_of t) ->
  s <> [] /\ strip s = s
  /\ forallb (fun c => negb (is_ender c)) s = true
  /\ (forall c, In c s -> In c t).
Proof.
  unfold sentences_of. intros H. apply List.filter_In in H.
  destruct H as [H Hlen]. apply in_map_iff in H. destruct H as (piece & <- & Hp).
  destruct (re_split_from_pieces t [] piece Hp) as [H1 H2].
  split; [|split; [|split]].
  - destruct (strip piece); [discriminate|discriminate].
  - apply strip_idem.
  - specialize (H2 eq_refl). rewrite forallb_forall in *.
    intros c Hc. apply H2, strip_incl, Hc.
  - intros c Hc. apply strip_incl in Hc. destruct (H1 c Hc) as [[]|Hin]. exact Hin.
Qed.

(** X3: every issue carries the fixed type, and its context is a
    sentence of 3..400 characters that holds the particle, holds no
    sentence ender, has no white space at either end, and was taken by
    the parser without an exception. *)
Theorem check_grammar_issue_contexts t p w :
  exists issues,
    check_grammar_with_hanlp t (Some p) w = (Return issues, w)
    /\ Forall (fun g =>
                 issue_type g = u "可能缺失动词"
                 /\ in_range (issue_context g) = true
                 /\ existsb (Z.eqb le_char) (issue_context g) = true
                 /\ forallb (fun c => negb (is_ender c)) (issue_context g) = true
                 /\ strip (issue_context g) = issue_context g
                 /\ returns (p [issue_context g]) = true)
              issues.
Proof.
  rewrite check_grammar_filter. eexists. split; [reflexivity|].
  apply List.Forall_forall. intros g Hg.
  apply in_map_iff in Hg. destruct Hg as (s & <- & Hs).
  apply List.filter_In in Hs. destruct Hs as [Hs Hr].
  destruct (sentences_of_facts t s Hs) as (_ & Hstrip & Hend & _).
  unfold reported in Hr. apply andb_prop in Hr. destruct Hr as [Hr Hle].
  apply andb_prop in Hr. destruct Hr as [Hrange Hret].
  cbn [issue_of issue_type issue_context]. repeat split; assumption.
Qed.

(** X4: a text without the particle yields no issue: with no parser
    the function returns the empty list, and with a parser it returns
    the empty list unless a raise of the parser leaves it. *)
Theorem check_grammar_without_particle t (parser : Strict.parser_handle) w :
  ~ In le_char t ->
  Strict.check_grammar_with_hanlp t parser w
  = (match parser with
     | None => Strict.Returns []
     | Some p =>
       match Strict.escape_of p (sentences_of t) with
       | Some e => Strict.Raises e
       | None => Strict.Returns []
       end
     end, w).
Proof.
  intros Hno. destruct parser as [p|]; [|reflexivity].
  rewrite strict_check_grammar_run.
  rewrite filter_none; [reflexivity|]. intros s Hs.
  destruct (sentences_of_facts t s Hs) as (_ & _ & _ & Hin).
  unfold Strict.reported. destruct (existsb (Z.eqb le_char) s) eqn:E.
  - exfalso. apply existsb_exists in E. destruct E as (c & Hc & Heq).
    apply Z.eqb_eq in Heq. subst c. exact (Hno (Hin _ Hc)).
  - apply andb_false_r.
Qed.

(** ** The trimmer's pattern and bounds *)

Lemma starts_with_spec p : forall s,
  starts_with p s = true <-> exists b, s = p ++ b.
Proof.
  induction p as [|x p IH]; intros s.
  - split; [intros _; exists s; reflexivity|reflexivity].
  - destruct s as [|y s]; cbn [starts_with].
    + split; [discriminate|intros [b Hb]; discriminate].
    + rewrite andb_true_iff, Z.eqb_eq, IH. split.
      * intros [-> [b ->]]. exists b. reflexivity.
      * intros [b Hb]. injection Hb as -> ->. split; [reflexivity|exists b; reflexivity].
Qed.

Lemma occurs_spec p : forall s,
  occurs p s = true <-> exists a b, s = a ++ p ++ b.
Proof.
  induction s as [|y s IH]; cbn [occurs]; rewrite orb_true_iff, starts_with_spec.
  - split.
    + intros [[b Hb]|H]; [exists [], b; exact Hb|discriminate].
    + intros (a & b & H). left. destruct a as [|z a]; [exists b; exact H|discriminate].
  - rewrite IH. split.
    + intros [[b Hb]|(a & b & ->)]; [exists [], b; exact Hb|].
      exists (y :: a), b. reflexivity.
    + intros (a & b & H). destruct a as [|z a].
      * left. exists b. exact H.
      * right. injection H as -> ->. exists a, b. reflexivity.
Qed.

Lemma starts_with_app_l p q s :
  starts_with (p ++ q) s = true -> starts_with p s = true.
Proof.
  rewrite !starts_with_spec. intros [b ->]. exists (q ++ b).
  rewrite app_assoc. reflexivity.
Qed.

Lemma end_marker_search_occurs l :
  end_marker_search l = occurs end_word l || occurs end_word_long l.
Proof.
  induction l as [|c l IH].
  - reflexivity.
  - cbn [end_marker_search occurs]. rewrite IH. unfold end_marker_at.
    assert (Hd : starts_with (end_word ++ [paren_close]) (c :: l) = true ->
                 starts_with end_word (c :: l) = true)
      by apply starts_with_app_l.
    assert (Ha : (c =? paren_open) && starts_with end_word l = true ->
                 occurs end_word l = true).
    { intros H. apply andb_prop in H. destruct H as [_ H].
      destruct l; cbn [occurs]; rewrite H; reflexivity. }
    destruct (starts_with (end_word ++ [paren_close]) (c :: l));
      destruct ((c =? paren_open) && starts_with end_word l);
      try rewrite (Hd eq_refl); try rewrite (Ha eq_refl);
      destruct (starts_with end_word (c :: l));
      destruct (starts_with end_word_long (c :: l));
      destruct (occurs end_word l); destruct (occurs end_word_long l);
      reflexivity.
Qed.

(** X5: the footer pattern finds a match in a line exactly when the
    line holds one of the two end words as a substring; the optional
    parentheses of the pattern change nothing. *)
Theorem end_marker_is_substring l :
  end_marker_search l = true
  <-> (exists a b, l = a ++ end_word ++ b)
      \/ (exists a b, l = a ++ end_word_long ++ b).
Proof.
  rewrite end_marker_search_occurs, orb_true_iff, !occurs_spec. reflexivity.
Qed.

Lemma scan_start_spec title ls : forall i : nat,
  (i <= scan_start title ls i i <= i + List.length ls)%nat
  /\ forallb (is_echo title) (take (scan_start title ls i i - i) ls) = true
  /\ holds_at (is_echo title) ls (scan_start title ls i i - i) = false.
Proof.
  induction ls as [|l ls IH]; intros i; cbn [scan_start].
  - rewrite Nat.sub_diag. split; [simpl; lia|]. split; reflexivity.
  - fold (is_echo title l). destruct (is_echo title l) eqn:E.
    + destruct (IH (S i)) as (Hb & Ht & Hh).
      set (k := scan_start title ls (S i) (S i)) in *.
      replace (k - i)%nat with (S (k - S i)) by lia.
      split; [simpl; lia|]. split.
      * cbn [take firstn forallb]. rewrite E. exact Ht.
      * exact Hh.
    + rewrite Nat.sub_diag. split; [simpl; lia|]. split; [reflexivity|].
      unfold holds_at. cbn. exact E.
Qed.

Lemma scan_end_spec (lines : list text) : forall n a : nat,
  (a <= scan_end lines (rev (seq a n)) (a + n) <= a + n)%nat
  /\ (forall i : nat,
        (scan_end lines (rev (seq a n)) (a + n) <= i < a + n)%nat ->
        holds_at end_marker_search lines i = true)
  /\ (if (a <? scan_end lines (rev (seq a n)) (a + n))%nat
      then holds_at end_marker_search lines
             (scan_end lines (rev (seq a n)) (a + n) - 1)
      else false) = false.
Proof.
  induction n as [|n IH]; intros a.
  - cbn [seq rev scan_end]. rewrite Nat.add_0_r, Nat.ltb_irrefl.
    split; [lia|]. split; [intros i Hi; lia|reflexivity].
  - rewrite seq_S, rev_app_distr. cbn [rev app scan_end].
    assert (Hlast : forall stop : nat,
              stop = (a + S n)%nat ->
              holds_at end_marker_search lines (a + n) = false ->
              (a <= stop <= a + S n)%nat
              /\ (forall i : nat, (stop <= i < a + S n)%nat ->
                    holds_at end_marker_search lines i = true)
              /\ (if (a <? stop)%nat
                  then holds_at end_marker_search lines (stop - 1)
                  else false) = false).
    { intros stop -> Hf. split; [lia|]. split; [intros i Hi; lia|].
      replace (a + S n - 1)%nat with (a + n)%nat by lia.
      rewrite Hf. destruct (a <? a + S n)%nat; reflexivity. }
    destruct (lines !! (a + n)%nat) as [l|] eqn:El.
    + destruct (end_marker_search l) eqn:Em.
      * destruct (IH a) as (Hb & Hall & Hprev).
        split; [lia|]. split; [|exact Hprev].
        intros i Hi. destruct (Nat.eq_dec i (a + n)%nat) as [->|Hne].
        -- unfold holds_at. rewrite El. exact Em.
        -- apply Hall. lia.
      * apply Hlast; [reflexivity|]. unfold holds_at. rewrite El. exact Em.
    + apply Hlast; [reflexivity|]. unfold holds_at. rewrite El. reflexivity.
Qed.

Lemma clean_as_slice content title :
  clean_chapter_content content title
  = join [LF] (slice (splitlines content)
                     (trim_bounds (splitlines content) title).1
                     (trim_bounds (splitlines content) title).2).
Proof.
  unfold clean_chapter_content.
  destruct (splitlines content) as [|l ls] eqn:E.
  - unfold splitlines in E. apply splitlines_from_nil in E.
    destruct E as [_ ->]. reflexivity.
  - destruct (trim_bounds (l :: ls) title). reflexivity.
Qed.

Lemma trim_bounds_runs content title :
  let lines := splitlines content in
  let start := (trim_bounds lines title).1 in
  let stop := (trim_bounds lines title).2 in
  clean_chapter_content content title = join [LF] (slice lines start stop)
  /\ (start <= stop <= List.length lines)%nat
  /\ forallb (is_echo title) (take start lines) = true
  /\ holds_at (is_echo title) lines start = false
  /\ forallb end_marker_search (drop stop lines) = true
  /\ (if (start <? stop)%nat
      then holds_at end_marker_search lines (stop - 1)
      else false) = false.
Proof.
  intros lines start stop.
  split; [apply clean_as_slice|].
  split; [apply trim_bounds_ok|].
  subst start stop. unfold trim_bounds. cbn [fst snd].
  destruct (scan_start_spec title lines 0) as (Hb & Ht & Hh).
  rewrite Nat.sub_0_r in Ht, Hh. simpl in Hb.
  set (start := scan_start title lines 0 0) in *.
  split; [exact Ht|]. split; [exact Hh|].
  unfold range_down.
  destruct (scan_end_spec lines (List.length lines - start) start)
    as (Hs & Hall & Hprev).
  replace (start + (List.length lines - start))%nat with (List.length lines)
    in * by lia.
  set (stop := scan_end lines _ _) in *.
  split; [|exact Hprev].
  apply forallb_forall. intros x Hx.
  apply list_elem_of_In, list_elem_of_lookup in Hx. destruct Hx as [j Hj].
  rewrite lookup_drop in Hj.
  assert (Hlt : (stop + j < List.length lines)%nat)
    by (apply lookup_lt_Some in Hj; exact Hj).
  specialize (Hall (stop + j)%nat ltac:(lia)).
  unfold holds_at in Hall. rewrite Hj in Hall. exact Hall.
Qed.

(** X6: the trimmer returns the join of [lines[start:stop]], where
    the lines before [start] are the longest run of title echoes from
    the first line on (line [start], if any, is not one: echoes
    further down are kept), and the lines from [stop] on are the
    longest run of footer lines from the last line back that stays
    above [start]. *)
Theorem clean_cuts_maximal_runs content title :
  let lines := splitlines content in
  let start := (trim_bounds lines title).1 in
  let stop := (trim_bounds lines title).2 in
  clean_chapter_content content title = join [LF] (slice lines start stop)
  /\ (start <= stop <= List.length lines)%nat
  /\ forallb (is_echo title) (take start lines) = true
  /\ holds_at (is_echo title) lines start = false
  /\ forallb end_marker_search (drop stop lines) = true
  /\ (if (start <? stop)%nat
      then holds_at end_marker_search lines (stop - 1)
      else false) = false.
Proof. apply trim_bounds_runs. Qed.

(** X7: a text all of whose lines echo the title is trimmed to the
    empty text. *)
Theorem clean_of_echoes_is_empty content title :
  forallb (is_echo title) (splitlines content) = true ->
  clean_chapter_content content title = [].
Proof.
  intros Hall. rewrite clean_as_slice. unfold trim_bounds. cbn [fst snd].
  destruct (scan_start_spec title (splitlines content) 0) as (Hb & _ & Hh).
  rewrite Nat.sub_0_r in Hh. simpl in Hb.
  set (start := scan_start title (splitlines content) 0 0) in *.
  assert (Hge : (List.length (splitlines content) <= start)%nat).
  { unfold holds_at in Hh.
    destruct (splitlines content !! start) as [l|] eqn:El.
    - rewrite forallb_forall in Hall. rewrite Hall in Hh; [discriminate|].
      apply list_elem_of_In, list_elem_of_lookup. exists start. exact El.
    - apply lookup_ge_None in El. exact El. }
  unfold slice. rewrite drop_ge by exact Hge. rewrite take_nil. reflexivity.
Qed.

(** ** Line boundaries and length of the trimmer's result *)

(** One step of [splitlines_from] at a line boundary. *)
Lemma splitlines_from_break cur c rest :
  is_linebreak c = true ->
  exists rest', (List.length rest' <= List.length rest)%nat
    /\ splitlines_from cur (c :: rest) = cur :: splitlines_from [] rest'.
Proof.
  intros H. cbn [splitlines_from]. rewrite H.
  destruct rest as [|c2 rest2]; [exists []; split; [simpl; lia|reflexivity]|].
  destruct ((c =? CR) && (c2 =? LF)).
  - exists rest2. split; [simpl; lia|reflexivity].
  - exists (c2 :: rest2). split; [lia|reflexivity].
Qed.

Lemma splitlines_from_no_break n : forall s cur l,
  (List.length s <= n)%nat ->
  forallb (fun c => negb (is_linebreak c)) cur = true ->
  In l (splitlines_from cur s) ->
  forallb (fun c => negb (is_linebreak c)) l = true.
Proof.
  induction n as [|n IH]; intros s cur l Hn Hcur Hl.
  - destruct s; [|simpl in Hn; lia].
    cbn in Hl. destruct cur; [destruct Hl|]. destruct Hl as [<-|[]]. exact Hcur.
  - destruct s as [|c rest].
    + cbn in Hl. destruct cur; [destruct Hl|]. destruct Hl as [<-|[]]. exact Hcur.
    + simpl in Hn. destruct (is_linebreak c) eqn:Eb.
      * destruct (splitlines_from_break cur c rest Eb) as (rest' & Hlen & E).
        rewrite E in Hl. destruct Hl as [<-|Hl]; [exact Hcur|].
        apply (IH rest' [] l); [lia|reflexivity|exact Hl].
      * cbn [splitlines_from] in Hl. rewrite Eb in Hl.
        apply (IH rest (cur ++ [c]) l); [lia| |exact Hl].
        rewrite forallb_app, Hcur. cbn [forallb]. rewrite Eb. reflexivity.
Qed.

Lemma join_chars sep parts c :
  In c (join sep parts) -> In c sep \/ exists p, In p parts /\ In c p.
Proof.
  induction parts as [|x parts IH]; [intros []|].
  destruct parts as [|y parts].
  - cbn [join]. intros H. right. exists x. split; [left; reflexivity|exact H].
  - rewrite join_cons. intros H. apply in_app_or in H. destruct H as [H|H].
    + right. exists x. split; [left; reflexivity|exact H].
    + apply in_app_or in H. destruct H as [H|H]; [left; exact H|].
      destruct (IH H) as [Hs|(p & Hp & Hc)]; [left; exact Hs|].
      right. exists p. split; [right; exact Hp|exact Hc].
Qed.

Lemma slice_incl {A} (l : list A) (start stop : nat) x :
  In x (slice l start stop) -> In x l.
Proof.
  unfold slice. intros H.
  rewrite <- (take_drop start l). apply in_or_app. right.
  rewrite <- (take_drop (stop - start) (drop start l)).
  apply in_or_app. left. exact H.
Qed.

(** X8: in the trimmer's result every line boundary is a line feed:
    carriage returns and the other boundaries of [str.splitlines] are
    gone. *)
Theorem clean_line_boundaries content title :
  forallb (fun c => negb (is_linebreak c) || (c =? LF))
          (clean_chapter_content content title) = true.
Proof.
  rewrite clean_as_slice. apply forallb_forall. intros c Hc.
  apply join_chars in Hc. destruct Hc as [[<-|[]]|(l & Hl & Hc)].
  - apply orb_true_r.
  - apply slice_incl in Hl.
    pose proof (splitlines_from_no_break _ content [] l (le_n _) eq_refl Hl) as H.
    rewrite forallb_forall in H. rewrite (H c Hc). reflexivity.
Qed.

Lemma join_length_step sep (x : text) parts :
  (List.length (join sep parts) <= List.length (join sep (x :: parts)))%nat.
Proof.
  destruct parts as [|y parts]; [cbn; lia|].
  rewrite (join_cons sep x y parts), !length_app. lia.
Qed.

Lemma join_length_drop sep parts : forall k : nat,
  (List.length (join sep (drop k parts)) <= List.length (join sep parts))%nat.
Proof.
  induction parts as [|x parts IH]; intros k.
  - rewrite drop_nil. lia.
  - destruct k as [|k]; [rewrite drop_0; lia|].
    cbn [drop skipn]. pose proof (IH k). pose proof (join_length_step sep x parts).
    lia.
Qed.

Lemma join_length_take sep parts : forall k : nat,
  (List.length (join sep (take k parts)) <= List.length (join sep parts))%nat.
Proof.
  induction parts as [|x parts IH]; intros k.
  - rewrite take_nil. lia.
  - destruct k as [|k]; [cbn; lia|].
    cbn [take firstn]. specialize (IH k).
    destruct parts as [|y parts]; [rewrite take_nil; lia|].
    rewrite (join_cons sep x y parts).
    destruct (take k (y :: parts)) as [|z zs] eqn:E.
    + cbn [join]. rewrite !length_app. lia.
    + rewrite (join_cons sep x z zs), !length_app. lia.
Qed.

Lemma splitlines_from_join_length n : forall s cur,
  (List.length s <= n)%nat ->
  (List.length (join [LF] (splitlines_from cur s))
   <= List.length cur + List.length s)%nat.
Proof.
  induction n as [|n IH]; intros s cur Hn.
  - destruct s; [|simpl in Hn; lia]. destruct cur; cbn; lia.
  - destruct s as [|c rest]; [destruct cur; cbn; lia|].
    simpl in Hn. destruct (is_linebreak c) eqn:Eb.
    + destruct (splitlines_from_break cur c rest Eb) as (rest' & Hlen & E).
      rewrite E. specialize (IH rest' [] ltac:(lia)).
      destruct (splitlines_from [] rest') as [|y ys].
      * cbn [join List.length]. lia.
      * rewrite join_cons, !length_app. cbn [List.length] in *. lia.
    + cbn [splitlines_from]. rewrite Eb.
      specialize (IH rest (cur ++ [c]) ltac:(lia)).
      rewrite length_app in IH. cbn [List.length] in *. lia.
Qed.

(** X9: the trimmer never returns a text longer than its input. *)
Theorem clean_never_longer content title :
  (List.length (clean_chapter_content content title) <= List.length content)%nat.
Proof.
  rewrite clean_as_slice. unfold slice.
  pose proof (join_length_take [LF]
                (drop (trim_bounds (splitlines content) title).1 (splitlines content))
                ((trim_bounds (splitlines content) title).2
                 - (trim_bounds (splitlines content) title).1)).
  pose proof (join_length_drop [LF] (splitlines content)
                (trim_bounds (splitlines content) title).1).
  pose proof (splitlines_from_join_length _ content [] (le_n _)).
  unfold splitlines in *. simpl in *. lia.
Qed.

(** ** More on the Punctuation Normalizer *)

Lemma punct_map_lookup_none c : punct_map !! c = None -> ~ In c punct_ascii.
Proof.
  rewrite punct_map_eq. intros H Hin.
  apply not_elem_of_list_to_map_2 in H. apply H.
  rewrite fst_zip by (vm_compute; lia). apply list_elem_of_In, Hin.
Qed.

(** No value of the table is one of its keys. *)
Lemma translate_char_not_key c : ~ In (default c (punct_map !! c)) punct_ascii.
Proof.
  destruct (punct_map !! c) as [d|] eqn:E; simpl.
  - apply punct_map_lookup in E. apply elem_of_zip_r, list_elem_of_In in E.
    vm_compute in E.
    repeat (destruct E as [<-|E]; [vm_compute; intuition discriminate|]).
    destruct E.
  - apply punct_map_lookup_none, E.
Qed.

Lemma translate_char_id c : ~ In c punct_ascii -> default c (punct_map !! c) = c.
Proof.
  intros H. destruct (punct_map !! c) as [d|] eqn:E; [|reflexivity].
  exfalso. apply H. apply punct_map_lookup in E.
  apply elem_of_zip_l, list_elem_of_In in E. exact E.
Qed.

Lemma translate_id s :
  Forall (fun c => ~ In c punct_ascii) s -> translate punct_map s = s.
Proof.
  induction 1 as [|c s Hc _ IH]; [reflexivity|].
  cbn [translate map]. fold (translate punct_map s).
  rewrite IH, translate_char_id by exact Hc. reflexivity.
Qed.

Lemma mark_not_key idx : ~ In (mark idx) punct_ascii.
Proof. unfold mark. destruct (Z.odd idx); vm_compute; intuition discriminate. Qed.

Section NormalizerMore.

Variable uni_alnum : Z -> bool.

Lemma marks_Forall (P : Z -> Prop) s : forall n prev,
  (forall idx, P (mark idx)) -> Forall P s -> Forall P (marks uni_alnum n prev s).
Proof.
  induction s as [|c rest IH]; intros n prev Hm Hs; [constructor|].
  inversion Hs as [|? ? Hc Hrest]; subst. cbn [marks].
  destruct (quote_re uni_alnum prev (c :: rest)); constructor; auto.
Qed.

Lemma converted_no_keys t :
  Forall (fun c => ~ In c punct_ascii)
         (marks uni_alnum 0 None (translate punct_map t)).
Proof.
  apply marks_Forall; [apply mark_not_key|].
  unfold translate. apply List.Forall_forall. intros c Hc.
  apply in_map_iff in Hc. destruct Hc as (x & <- & _).
  apply translate_char_not_key.
Qed.

(** X10: none of the twelve ASCII characters of the table is left in
    the normalizer's result. *)
Theorem convert_leaves_no_ascii_punctuation t w :
  exists out,
    (convert_punctuation_to_chinese uni_alnum t w).1 = Return out
    /\ Forall (fun c => ~ In c punct_ascii) out.
Proof.
  destruct (convert_run uni_alnum t w) as (w' & E & _). rewrite E.
  eexists. split; [reflexivity|]. apply converted_no_keys.
Qed.

(** X11: the characters that are neither in the table nor a double
    quote stay where they are. *)
Theorem convert_keeps_other_characters t w (i : nat) c :
  t !! i = Some c -> ~ In c punct_ascii -> c <> dquote ->
  exists out,
    (convert_punctuation_to_chinese uni_alnum t w).1 = Return out
    /\ out !! i = Some c.
Proof.
  intros Hi Hk Hq. destruct (convert_run uni_alnum t w) as (w' & E & _).
  rewrite E. eexists. split; [reflexivity|].
  assert (Hs : translate punct_map t !! i = Some c).
  { unfold translate. rewrite lookup_map, Hi. simpl.
    rewrite translate_char_id by exact Hk. reflexivity. }
  rewrite marks_lookup_other; [exact Hs|].
  unfold replaceable_from. rewrite Hs.
  destruct (Z.eqb_spec c dquote) as [->|_]; [contradiction|reflexivity].
Qed.

Lemma opening_among_div2 q :
  opening_among true q = Nat.div2 (S q) /\ opening_among false q = Nat.div2 q.
Proof.
  induction q as [|q [IH1 IH2]]; [split; reflexivity|].
  cbn [opening_among negb]. rewrite IH1, IH2. split; [|reflexivity].
  destruct q; reflexivity.
Qed.

(** X12: with [q] double quotes to replace, of any parity, the result
    has [(q + 1) / 2] opening and [q / 2] closing marks more than the
    input: one opening mark stays unmatched when [q] is odd. *)
Theorem convert_mark_counts t w :
  exists out,
    (convert_punctuation_to_chinese uni_alnum t w).1 = Return out
    /\ count_occ Z.eq_dec out open_mark
       = (count_occ Z.eq_dec t open_mark
          + Nat.div2 (S (List.length
               (replaced_positions uni_alnum (translate punct_map t)))))%nat
    /\ count_occ Z.eq_dec out close_mark
       = (count_occ Z.eq_dec t close_mark
          + Nat.div2 (List.length
               (replaced_positions uni_alnum (translate punct_map t))))%nat.
Proof.
  destruct (convert_run uni_alnum t w) as (w' & E & _). rewrite E.
  eexists. split; [reflexivity|].
  unfold replaced_positions, replaceable. rewrite <- pos_spec.
  destruct open_mark_not_punct as [Ho1 Ho2].
  destruct close_mark_not_punct as [Hc1 Hc2].
  destruct (opening_among_div2
              (List.length (pos uni_alnum None (translate punct_map t))))
    as [H1 H2].
  split.
  - rewrite marks_count_open, translate_count by assumption.
    change (Z.even 0) with true. rewrite H1. reflexivity.
  - rewrite marks_count_close, translate_count by assumption.
    change (Z.odd 0) with false. rewrite H2. reflexivity.
Qed.

End NormalizerMore.

(** *** Normalizing twice *)

Section NormalizerTwice.

Variable uni_alnum : Z -> bool.
Hypothesis open_not_alnum : uni_alnum open_mark = false.
Hypothesis close_not_alnum : uni_alnum close_mark = false.

Lemma mark_not_word idx : is_word uni_alnum (mark idx) = false.
Proof.
  unfold mark, is_word. destruct (Z.odd idx); cbn.
  - rewrite open_not_alnum. reflexivity.
  - rewrite close_not_alnum. reflexivity.
Qed.

Lemma mark_not_dquote idx : mark idx <> dquote.
Proof. unfold mark. destruct (Z.odd idx); discriminate. Qed.

Lemma mark_not_lookbehind idx : in_lookbehind_class (mark idx) = false.
Proof. unfold mark. destruct (Z.odd idx); reflexivity. Qed.

(** The pattern sees the character before only through its class and
    its being a word character, and the text after the quote only
    through its first character being a word character. *)
Lemma quote_re_congr prev prev' c r r' :
  word_side uni_alnum prev' = word_side uni_alnum prev ->
  lookbehind_side prev' = lookbehind_side prev ->
  word_side uni_alnum (head r') = word_side uni_alnum (head r) ->
  quote_re uni_alnum prev' (c :: r') = quote_re uni_alnum prev (c :: r).
Proof.
  intros Hw Hl Hh. unfold quote_re, alt_lookbehind, alt_non_boundary, non_boundary.
  rewrite Hw, Hh. f_equal.
  destruct prev' as [p'|], prev as [p|]; cbn [lookbehind_side] in Hl;
    rewrite ?Hl; try reflexivity.
  - rewrite <- Hl. reflexivity.
Qed.

Lemma marks_head s n prev :
  word_side uni_alnum (head (marks uni_alnum n prev s))
  = word_side uni_alnum (head s).
Proof.
  destruct s as [|c rest]; [reflexivity|]. cbn [marks].
  destruct (quote_re uni_alnum prev (c :: rest)) eqn:E; [|reflexivity].
  apply quote_re_dquote in E. subst c. cbn [head word_side].
  rewrite mark_not_word. reflexivity.
Qed.

Lemma marks_marks s : forall n m prev prev',
  word_side uni_alnum prev' = word_side uni_alnum prev ->
  lookbehind_side prev' = lookbehind_side prev ->
  marks uni_alnum m prev' (marks uni_alnum n prev s) = marks uni_alnum n prev s.
Proof.
  induction s as [|c rest IH]; intros n m prev prev' Hw Hl; [reflexivity|].
  cbn [marks]. destruct (quote_re uni_alnum prev (c :: rest)) eqn:E.
  - apply quote_re_dquote in E. subst c. cbn [marks].
    destruct (quote_re uni_alnum prev' (mark (n + 1) :: _)) eqn:E'.
    + apply quote_re_dquote in E'. exfalso. exact (mark_not_dquote _ E').
    + f_equal. apply IH.
      * cbn [word_side]. rewrite mark_not_word. reflexivity.
      * cbn [lookbehind_side]. rewrite mark_not_lookbehind. reflexivity.
  - cbn [marks].
    rewrite (quote_re_congr prev prev' c rest
               (marks uni_alnum n (Some c) rest) Hw Hl (marks_head _ _ _)), E.
    f_equal. apply IH; reflexivity.
Qed.

(** X13: when the two marks are not word characters, normalizing the
    normalizer's result changes nothing. *)
Theorem convert_twice t w w' :
  exists out,
    (convert_punctuation_to_chinese uni_alnum t w).1 = Return out
    /\ (convert_punctuation_to_chinese uni_alnum out w').1 = Return out.
Proof.
  destruct (convert_run uni_alnum t w) as (w1 & E1 & _). rewrite E1.
  eexists. split; [reflexivity|].
  destruct (convert_run uni_alnum
              (marks uni_alnum 0 None (translate punct_map t)) w')
    as (w2 & E2 & _).
  rewrite E2. cbn [fst]. f_equal.
  rewrite (translate_id _ (converted_no_keys uni_alnum t)).
  apply marks_marks; reflexivity.
Qed.

End NormalizerTwice.

(** ** File names *)

Lemma rfind_from_absent c s : forall i found,
  ~ In c s -> rfind_from i c s found = found.
Proof.
  induction s as [|x s IH]; intros i found H; [reflexivity|].
  cbn [rfind_from]. destruct (Z.eqb_spec x c) as [->|_].
  - exfalso. apply H. left. reflexivity.
  - apply IH. intros Hin. apply H. right. exact Hin.
Qed.

Lemma rfind_from_last c a : forall b i found,
  ~ In c b ->
  rfind_from i c (a ++ c :: b) found = Some (i + List.length a)%nat.
Proof.
  induction a as [|x a IH]; intros b i found H.
  - cbn [app rfind_from]. rewrite Z.eqb_refl, rfind_from_absent by exact H.
    f_equal. simpl. lia.
  - cbn [app rfind_from]. rewrite IH by exact H. f_equal. simpl. lia.
Qed.

Lemma after_first_underscore_app a b whole :
  ~ In underscore a ->
  after_first_underscore (a ++ underscore :: b) whole = b.
Proof.
  intros H. induction a as [|x a IH]; cbn [app after_first_underscore].
  - rewrite Z.eqb_refl. reflexivity.
  - destruct (Z.eqb_spec x underscore) as [->|_].
    + exfalso. apply H. left. reflexivity.
    + apply IH. intros Hin. apply H. right. exact Hin.
Qed.

(** X14: for a file called prefix, underscore, title, dot, extension,
    with no underscore in the prefix, no slash in the name and no dot
    in the extension, the chapter title derived from the name is the
    title; dots and underscores within the title are kept. *)
Theorem chapter_title_of_name prefix title ext :
  ~ In underscore prefix ->
  ~ In slash (prefix ++ title ++ ext) ->
  ~ In dot ext ->
  chapter_title_of (prefix ++ [underscore] ++ title ++ [dot] ++ ext) = title.
Proof.
  intros Hu Hs Hd. unfold chapter_title_of, splitext_root, rfind.
  assert (Hname : prefix ++ [underscore] ++ title ++ [dot] ++ ext
                  = (prefix ++ [underscore] ++ title) ++ dot :: ext).
  { rewrite <- !app_assoc. reflexivity. }
  rewrite Hname, (rfind_from_last dot _ ext 0 None Hd).
  rewrite rfind_from_absent.
  2:{ intros Hin. apply Hs. rewrite !in_app_iff in *. cbn [In] in Hin.
      destruct Hin as [[H|[[H|[]]|H]]|[H|H]]; try discriminate; tauto. }
  cbn [Nat.add]. unfold slice. rewrite drop_0, Nat.sub_0_r.
  rewrite take_app_length.
  assert (He : existsb (fun c => negb (c =? dot))
                       (prefix ++ [underscore] ++ title) = true).
  { apply existsb_exists. exists underscore. split; [|reflexivity].
    apply in_or_app. right. left. reflexivity. }
  rewrite He. apply after_first_underscore_app, Hu.
Qed.

Lemma basename_from_no_slash p : forall cur,
  ~ In slash cur -> ~ In slash (basename_from cur p).
Proof.
  induction p as [|c p IH]; intros cur H; cbn [basename_from]; [exact H|].
  destruct (Z.eqb_spec c slash) as [->|Hne].
  - apply IH. intros [].
  - apply IH. intros Hin. apply in_app_or in Hin.
    destruct Hin as [Hin|[->|[]]]; [exact (H Hin)|exact (Hne eq_refl)].
Qed.

Lemma basename_from_plain n : forall cur,
  ~ In slash n -> basename_from cur n = cur ++ n.
Proof.
  induction n as [|c n IH]; intros cur H; cbn [basename_from].
  - rewrite app_nil_r. reflexivity.
  - destruct (Z.eqb_spec c slash) as [->|_].
    + exfalso. apply H. left. reflexivity.
    + rewrite IH by (intros Hin; apply H; right; exact Hin).
      rewrite <- app_assoc. reflexivity.
Qed.

Lemma basename_from_app d : forall cur n,
  basename_from cur (d ++ slash :: n) = basename_from [] n.
Proof.
  induction d as [|c d IH]; intros cur n; cbn [app basename_from].
  - rewrite Z.eqb_refl. reflexivity.
  - destruct (c =? slash); apply IH.
Qed.

(** X15: the output file and the report lie right in the output
    directory: the file name of the output path is the input's file
    name, that of the report path is the input's file name after the
    report prefix, and a file name holds no slash. *)
Theorem output_keeps_file_name output_dir input_file :
  basename (joinpath output_dir (basename input_file)) = basename input_file
  /\ basename (joinpath output_dir (report_prefix ++ basename input_file))
     = report_prefix ++ basename input_file
  /\ ~ In slash (basename input_file).
Proof.
  assert (Hn : ~ In slash (basename input_file))
    by (apply basename_from_no_slash; intros []).
  assert (Hr : ~ In slash (report_prefix ++ basename input_file)).
  { intros Hin. apply in_app_or in Hin. destruct Hin as [Hin|Hin]; [|exact (Hn Hin)].
    vm_compute in Hin. intuition discriminate. }
  assert (Hj : forall n, ~ In slash n -> basename (joinpath output_dir n) = n).
  { intros n H. unfold basename, joinpath. cbn [app].
    rewrite basename_from_app. apply (basename_from_plain n []), H. }
  split; [apply Hj, Hn|]. split; [apply Hj, Hr|exact Hn].
Qed.

(** ** The writes of the batch, and refused writes *)

Section FileProcessorMore.

Variable uni_alnum : Z -> bool.



Lemma write_text_refused p t w :
  p ∈ locked w -> exists e, write_text p t w = (Raise e, w).
Proof.
  intros H. unfold write_text. rewrite decide_True by exact H.
  eexists. reflexivity.
Qed.

(** X19: when a file is read but its output file refuses the write,
    [process_file] raises and no write has completed: the report is
    not written either. *)
Theorem process_file_output_refused input output_dir corrector_instance parser
    w t :
  files w !! input = Some (File t) ->
  joinpath output_dir (basename input) ∈ locked w ->
  exists e w',
    process_file uni_alnum input output_dir corrector_instance parser w
    = (Raise e, w')
    /\ written w' = written w.
Proof.
  intros Hread Hlock.
  destruct (process_file_read uni_alnum input output_dir corrector_instance
              parser w t Hread) as (fs' & ->).
  destruct (pipeline uni_alnum (basename input) t corrector_instance parser)
    as [[corrected errs] issues].
  unfold write_phase. unfold_M.
  destruct (write_text_refused (joinpath output_dir (basename input)) corrected
              (World (files w) (locked w) (written w) fs') Hlock) as [e ->].
  exists e. eexists. split; reflexivity.
Qed.

(** X20: when the output file takes the write, there is a record or
    an issue to report, and the report refuses the write,
    [process_file] raises when the write of the corrected text has
    completed, and that write is the only one that has. *)
Theorem process_file_report_refused input output_dir corrector_instance parser
    w t :
  files w !! input = Some (File t) ->
  joinpath output_dir (basename input) ∉ locked w ->
  joinpath output_dir (report_prefix ++ basename input) ∈ locked w ->
  nonempty (pipeline uni_alnum (basename input) t corrector_instance parser).1.2
  || nonempty (pipeline uni_alnum (basename input) t corrector_instance parser).2
  = true ->
  exists e w',
    process_file uni_alnum input output_dir corrector_instance parser w
    = (Raise e, w')
    /\ written w'
       = written w
         ++ [(joinpath output_dir (basename input),
              (pipeline uni_alnum (basename input) t corrector_instance
                        parser).1.1)].
Proof.
  intros Hread Hout Hrep Hsome.
  destruct (process_file_read uni_alnum input output_dir corrector_instance
              parser w t Hread) as (fs' & ->).
  destruct (pipeline uni_alnum (basename input) t corrector_instance parser)
    as [[corrected errs] issues]. cbn [fst snd] in *.
  unfold write_phase. unfold_M.
  rewrite write_text_ok by exact Hout. rewrite Hsome.
  set (w1 := World _ _ _ _).
  destruct (write_text_refused
              (joinpath output_dir (report_prefix ++ basename input))
              (report_text (basename input) errs issues) w1 Hrep) as [e ->].
  exists e, w1. split; reflexivity.
Qed.


End FileProcessorMore.

(** ** Edge cases of the trimmer *)

(** X22: a line of white space only is an echo of the title exactly
    when the title is empty. *)
Theorem blank_line_echo title l :
  strip l = [] ->
  is_echo title l = match title with [] => true | _ => false end.
Proof.
  intros H. unfold is_echo, sim. rewrite H.
  destruct title as [|c title]; [reflexivity|].
  unfold ratio, exceeds_threshold. cbn.
  reflexivity.
Qed.

(** *** Trimming what was trimmed *)

Lemma splitlines_from_line x : forall cur s,
  forallb (fun c => negb (is_linebreak c)) x = true ->
  splitlines_from cur (x ++ s) = splitlines_from (cur ++ x) s.
Proof.
  induction x as [|c x IH]; intros cur s H.
  - rewrite app_nil_r. reflexivity.
  - cbn [forallb] in H. apply andb_prop in H. destruct H as [Hc Hx].
    apply negb_true_iff in Hc. cbn [app splitlines_from]. rewrite Hc.
    rewrite IH by exact Hx. rewrite <- app_assoc. reflexivity.
Qed.

Lemma splitlines_from_lf cur s :
  splitlines_from cur (LF :: s) = cur :: splitlines_from [] s.
Proof. cbn [splitlines_from]. destruct s; reflexivity. Qed.

(** Lines without boundaries, the last of them not empty, are the
    lines of their join. *)
Lemma splitlines_join ls : forall cur,
  Forall (fun l => forallb (fun c => negb (is_linebreak c)) l = true) ls ->
  ls <> [] -> last ls <> Some [] ->
  splitlines_from cur (join [LF] ls)
  = match ls with [] => [] | x :: rest => (cur ++ x) :: rest end.
Proof.
  induction ls as [|x ls IH]; intros cur Hall Hne Hlast; [contradiction|].
  inversion Hall as [|? ? Hx Hls]; subst.
  destruct ls as [|y ls].
  - cbn [join]. rewrite <- (app_nil_r x) at 1.
    rewrite splitlines_from_line by exact Hx. cbn [splitlines_from].
    destruct (cur ++ x) eqn:E; [|reflexivity].
    apply app_eq_nil in E. destruct E as [_ ->]. exfalso. apply Hlast. reflexivity.
  - rewrite join_cons. rewrite splitlines_from_line by exact Hx.
    cbn [app]. rewrite splitlines_from_lf. f_equal.
    rewrite (IH [] Hls); [reflexivity|discriminate|exact Hlast].
Qed.

Lemma join_last_line ls :
  ls <> [] -> last ls = Some [] ->
  join [LF] ls = [] \/ last (join [LF] ls) = Some LF.
Proof.
  induction ls as [|x ls IH]; intros Hne Hlast; [contradiction|].
  destruct ls as [|y ls].
  - injection Hlast as ->. left. reflexivity.
  - right. rewrite join_cons.
    destruct (IH ltac:(discriminate) Hlast) as [E|E].
    + rewrite E, app_nil_r. apply last_snoc.
    + rewrite app_assoc, last_app, E. reflexivity.
Qed.

Lemma trim_bounds_fixed ls title :
  holds_at (is_echo title) ls 0 = false ->
  holds_at end_marker_search ls (List.length ls - 1) = false ->
  trim_bounds ls title = (O, List.length ls).
Proof.
  intros He Hm. unfold trim_bounds.
  assert (Hs : scan_start title ls 0 0 = O).
  { destruct ls as [|l ls]; [reflexivity|]. cbn [scan_start].
    unfold holds_at in He. cbn in He. unfold is_echo in He. rewrite He. reflexivity. }
  rewrite Hs. f_equal. unfold range_down. rewrite Nat.sub_0_r.
  destruct (List.length ls) as [|n] eqn:E; [reflexivity|].
  rewrite seq_S, rev_app_distr. cbn [rev app Nat.add scan_end].
  unfold holds_at in Hm. replace (S n - 1)%nat with n in Hm by lia.
  destruct (ls !! n) as [l|]; [rewrite Hm|]; reflexivity.
Qed.

(** X23: the trimmer changes nothing in a result of its own that
    does not end with a line feed. *)
Theorem clean_twice content title :
  last (clean_chapter_content content title) <> Some LF ->
  clean_chapter_content (clean_chapter_content content title) title
  = clean_chapter_content content title.
Proof.
  intros Hlast.
  destruct (trim_bounds_runs content title)
    as (E & Hb & _ & Hecho & _ & Hmark).
  cbv zeta in *.
  set (lines := splitlines content) in *.
  set (start := (trim_bounds lines title).1) in *.
  set (stop := (trim_bounds lines title).2) in *.
  set (kept := slice lines start stop) in *.
  rewrite E in *.
  destruct kept as [|x kept'] eqn:Ek; [reflexivity|].
  assert (Hall : Forall (fun l => forallb (fun c => negb (is_linebreak c)) l = true)
                        (x :: kept')).
  { apply List.Forall_forall. intros l Hl. rewrite <- Ek in Hl.
    apply slice_incl in Hl.
    apply (splitlines_from_no_break _ content [] l (le_n _) eq_refl Hl). }
  destruct (decide (join [LF] (x :: kept') = [])) as [Hnil|Hnil];
    [rewrite Hnil; reflexivity|].
  assert (Hlk : last (x :: kept') <> Some []).
  { intros H. destruct (join_last_line (x :: kept') ltac:(discriminate) H);
      contradiction. }
  assert (Hlen : List.length (x :: kept') = (stop - start)%nat).
  { rewrite <- Ek. unfold kept, slice. rewrite length_take, length_drop. lia. }
  assert (Hlt : (start < stop)%nat) by (cbn [List.length] in Hlen; lia).
  assert (Hk : forall j : nat, (x :: kept') !! j = lines !! (start + j)%nat
                               \/ (x :: kept') !! j = None).
  { intros j. rewrite <- Ek. unfold kept, slice.
    destruct (Nat.lt_ge_cases j (stop - start)) as [Hj|Hj].
    - left. rewrite lookup_take_lt by lia. apply lookup_drop.
    - right. apply lookup_ge_None. rewrite length_take. lia. }
  unfold clean_chapter_content at 1. unfold splitlines.
  rewrite (splitlines_join (x :: kept') [] Hall ltac:(discriminate) Hlk).
  cbn [app]. rewrite trim_bounds_fixed.
  - unfold slice. rewrite drop_0, Nat.sub_0_r, take_ge by lia. reflexivity.
  - destruct (Hk O) as [H|H]; [|discriminate].
    unfold holds_at in *. rewrite H, Nat.add_0_r. exact Hecho.
  - pose proof (proj2 (Nat.ltb_lt _ _) Hlt) as Hltb. rewrite Hltb in Hmark.
    rewrite Hlen.
    destruct (Hk (stop - start - 1)%nat) as [H|H].
    + unfold holds_at in *. rewrite H.
      replace (start + (stop - start - 1))%nat with (stop - 1)%nat by lia.
      exact Hmark.
    + unfold holds_at. rewrite H. reflexivity.
Qed.

(** ** The normalizer on a text without double quotes *)

(** X24: on a text without double quotes the normalizer is the
    character table applied to each character. *)
Theorem convert_without_quotes uni_alnum t w :
  ~ In dquote t ->
  (convert_punctuation_to_chinese uni_alnum t w).1
  = Return (translate punct_map t).
Proof.
  intros Hq. destruct (convert_run uni_alnum t w) as (w' & E & _).
  rewrite E. cbn [fst]. f_equal. apply marks_no_quote.
  intros Hin. apply list_elem_of_In in Hin. unfold translate in Hin.
  apply in_map_iff in Hin. destruct Hin as (c & Hc & Hin).
  destruct dquote_not_punct as [Ha Hf].
  apply (translate_char_fix dquote c Ha Hf) in Hc. subst c. exact (Hq Hin).
Qed.

(** ** The further properties at concrete inputs *)

Import Book.

Lemma check_grammar_parser_in_range_witness :
  check_grammar_with_hanlp (u "他走了。好了!天黑了吗") (Some parser_total) empty_world
  = check_grammar_with_hanlp (u "他走了。好了!天黑了吗") (Some parser_in_range)
      empty_world.
Proof.
  apply check_grammar_parser_in_range. intros sent H.
  unfold parser_total, parser_in_range. cbn [forallb]. rewrite H. reflexivity.
Defined.

Lemma check_grammar_without_particle_witness :
  Strict.check_grammar_with_hanlp (u "你好吗。再见!")
    (Some (fun _ => Strict.Returns tt)) empty_world
  = (Strict.Returns [], empty_world)
  /\ Strict.check_grammar_with_hanlp (u "你好吗。再见!")
       (Some (fun _ => Strict.Raises Strict.bad_str)) empty_world
     = (Strict.Raises (Strict.Printable true (u "__str__ returned non-string")),
        empty_world).
Proof.
  split.
  - apply (check_grammar_without_particle (u "你好吗。再见!")
             (Some (fun _ => Strict.Returns tt)) empty_world).
    vm_compute. intuition discriminate.
  - apply (check_grammar_without_particle (u "你好吗。再见!")
             (Some (fun _ => Strict.Raises Strict.bad_str)) empty_world).
    vm_compute. intuition discriminate.
Defined.

Lemma clean_of_echoes_is_empty_witness :
  clean_chapter_content (u "Title" ++ [LF] ++ u " Title ") (u "Title") = [].
Proof. apply clean_of_echoes_is_empty. vm_compute. reflexivity. Defined.

Lemma convert_keeps_other_characters_witness :
  exists out,
    (convert_punctuation_to_chinese alnum_cjk (u "他说,好") empty_world).1
    = Return out
    /\ out !! 3%nat = Some 22909.
Proof.
  apply convert_keeps_other_characters.
  - vm_compute. reflexivity.
  - vm_compute. intuition discriminate.
  - discriminate.
Defined.

Lemma convert_twice_witness :
  exists out,
    (convert_punctuation_to_chinese alnum_cjk text1 empty_world).1 = Return out
    /\ (convert_punctuation_to_chinese alnum_cjk out shelf).1 = Return out.
Proof. apply convert_twice; reflexivity. Defined.

Lemma chapter_title_of_name_witness :
  chapter_title_of (u "01" ++ [underscore] ++ u "First Chapter" ++ [dot] ++ u "txt")
  = u "First Chapter".
Proof.
  apply chapter_title_of_name; vm_compute; intuition discriminate.
Defined.


Lemma process_file_output_refused_witness :
  exists e w',
    process_file alnum_cjk chapter1 out_path corrector_one None shelf_locked
    = (Raise e, w')
    /\ written w' = written shelf_locked.
Proof.
  apply (process_file_output_refused alnum_cjk chapter1 out_path corrector_one
           None shelf_locked text1).
  - vm_compute. reflexivity.
  - unfold shelf_locked. cbn [locked]. apply elem_of_singleton_2. reflexivity.
Defined.

Lemma process_file_report_refused_witness :
  exists e w',
    process_file alnum_cjk chapter1 out_path corrector_one None
      shelf_report_locked = (Raise e, w')
    /\ written w'
       = written shelf_report_locked
         ++ [(joinpath out_path (basename chapter1),
              (pipeline alnum_cjk (basename chapter1) text1 corrector_one None).1.1)].
Proof.
  apply (process_file_report_refused alnum_cjk chapter1 out_path corrector_one
           None shelf_report_locked text1).
  - vm_compute. reflexivity.
  - unfold shelf_report_locked. cbn [locked].
    intros H%elem_of_singleton. vm_compute in H. discriminate.
  - unfold shelf_report_locked. cbn [locked]. apply elem_of_singleton_2.
    reflexivity.
  - vm_compute. reflexivity.
Defined.


Lemma blank_line_echo_witness :
  is_echo (u "春") (u "  ") = false.
Proof. apply (blank_line_echo (u "春") (u "  ")). vm_compute. reflexivity. Defined.

Lemma clean_twice_witness :
  clean_chapter_content (clean_chapter_content text1 (u "春")) (u "春")
  = clean_chapter_content text1 (u "春").
Proof. apply clean_twice. vm_compute. discriminate. Defined.

Lemma convert_without_quotes_witness :
  (convert_punctuation_to_chinese alnum_cjk (u "Hello,world!") empty_world).1
  = Return (translate punct_map (u "Hello,world!")).
Proof. apply convert_without_quotes. vm_compute. intuition discriminate. Defined.

(** A blank line kept at the end is lost by a second run of the
    trimmer. *)
Example clean_blank_tail :
  clean_chapter_content (u "a" ++ [LF; LF]) (u "b") = u "a" ++ [LF]
  /\ clean_chapter_content (u "a" ++ [LF]) (u "b") = u "a".
Proof. split; vm_compute; reflexivity. Qed.

(** The parser is interrupted on the second sentence: the issue of the
    first one is lost with the raise. *)
Example grammar_interrupted :
  Strict.check_grammar_with_hanlp (u "他走了。天黑了吗")
    (Some (fun ss => if bool_decide (ss = [u "天黑了吗"])
                     then Strict.Raises Strict.KeyboardInterrupt
                     else Strict.Returns tt)) empty_world
  = (Strict.Raises Strict.KeyboardInterrupt, empty_world).
Proof. vm_compute. reflexivity. Qed.
